(** * signature: per-block CRC signature of a file

    A shallow embedding of [source/signature.cpp]: the [block_size] option
    class with its validator, the argument checks of [main], the [crc_saver]
    lambda, the checksum task and the read / check / drain loops of [main]
    run against a thread pool whose tasks complete in any order. Where the
    other version of the file that computes checksums differs (the [catch]
    blocks of the read loop and the insert of the task), its code is embedded
    next to that of [source/signature.cpp]. *)

From Stdlib Require Import ZArith Lia.
From Stdlib.Strings Require Import Byte Ascii String.
From stdpp Require Import base gmap list strings pretty.

Local Open Scope Z_scope.

(** ** Machine integers *)

(** [std::numeric_limits<uint64_t>::max()] *)
Definition uint64_max : Z := 2 ^ 64 - 1.

(** Arithmetic on [uint64_t] wraps around. *)
Definition wrap64 (z : Z) : Z := z mod 2 ^ 64.

Definition is_uint64 (z : Z) : Prop := 0 ≤ z ≤ uint64_max.

(** The outcome of a piece of code that may evaluate an operation the
    language leaves undefined. *)
Inductive outcome (A : Type) : Type :=
  | Returns (a : A)
  | Undefined.
Arguments Returns {A} a.
Arguments Undefined {A}.

(** Unsigned division [a / b]; undefined for [b = 0]. *)
Definition udiv (a b : Z) : outcome Z :=
  if decide (b = 0) then Undefined else Returns (a / b).

(** ** The [block_size] class *)

Module BlockSize.

Definition BLOCK_SIZE_KILOBYTE : Z := 1024.
Definition BLOCK_SIZE_MEGABYTE : Z := wrap64 (1024 * BLOCK_SIZE_KILOBYTE).
Definition BLOCK_SIZE_GIGABYTE : Z := wrap64 (1024 * BLOCK_SIZE_MEGABYTE).

Record block_size : Type := { number_ : Z; suffix_ : Z }.

(** [block_size()] and [block_size(uint64_t number)] *)
Definition default_ctor : block_size := {| number_ := 0; suffix_ := 1 |}.
Definition from_number (number : Z) : block_size :=
  {| number_ := number; suffix_ := 1 |}.

(** The [if (suffix != 0) switch (suffix)] of [set]: the multiplier [tmp],
    or [None] on the [default: return false] branch. *)
Definition suffix_multiplier (suffix : ascii) : option Z :=
  if decide (suffix = Ascii.zero) then Some 1
  else if decide (suffix = "K"%char) then Some BLOCK_SIZE_KILOBYTE
  else if decide (suffix = "M"%char) then Some BLOCK_SIZE_MEGABYTE
  else if decide (suffix = "G"%char) then Some BLOCK_SIZE_GIGABYTE
  else None.

(** [bool block_size::set(uint64_t number, char suffix)]: the returned flag
    and the object afterwards. *)
Definition set (self : block_size) (number : Z) (suffix : ascii)
  : outcome (bool * block_size) :=
  match suffix_multiplier suffix with
  | None => Returns (false, self)
  | Some tmp =>
    match udiv uint64_max tmp with
    | Undefined => Undefined
    | Returns q1 =>
      if decide (q1 < number) then Returns (false, self) else
      match udiv uint64_max number with
      | Undefined => Undefined
      | Returns q2 =>
        if decide (q2 < tmp) then Returns (false, self) else
        let bs := wrap64 (number * tmp) in
        if decide (bs < BLOCK_SIZE_KILOBYTE) then Returns (false, self)
        else Returns (true, {| number_ := number; suffix_ := tmp |})
      end
    end
  end.

(** [uint64_t block_size::get() const] *)
Definition get (self : block_size) : Z := wrap64 (number_ self * suffix_ self).

(** *** The [validate] overload for [boost::program_options] *)

Definition digit_value (c : ascii) : option Z :=
  let n := Z.of_N (N_of_ascii c) in
  if decide (48 ≤ n ≤ 57) then Some (n - 48) else None.

(** The longest prefix of decimal digits ([^\d+], most significant first) and
    the rest of the string. *)
Fixpoint leading_digits (s : string) : list Z * string :=
  match s with
  | EmptyString => ([], EmptyString)
  | String c s' =>
    match digit_value c with
    | Some d => let '(ds, rest) := leading_digits s' in (d :: ds, rest)
    | None => ([], s)
    end
  end.

(** The characters of the class [[K|M|G]]; the bar is one of them. *)
Definition suffix_class (c : ascii) : bool :=
  bool_decide (c = "K" ∨ c = "|" ∨ c = "M" ∨ c = "G")%char.

(** [regex_match] against [(^\d+)([K|M|G]?$)]: the two captures. *)
Definition regex_match (s : string) : option (list Z * string) :=
  let '(ds, rest) := leading_digits s in
  match ds, rest with
  | [], _ => None
  | _, EmptyString => Some (ds, EmptyString)
  | _, String c EmptyString =>
      if suffix_class c then Some (ds, rest) else None
  | _, _ => None
  end.

(** [boost::lexical_cast<uint64_t>] of a digit string: [None] stands for
    [bad_lexical_cast], thrown when the value does not fit. *)
Definition lexical_cast_uint64 (ds : list Z) : option Z :=
  let v := foldl (λ acc d, 10 * acc + d) 0 ds in
  if decide (v ≤ uint64_max) then Some v else None.

Inductive validated : Type :=
  | value_stored (bs : block_size)
  | validation_error.

Definition validate (s : string) : outcome validated :=
  match regex_match s with
  | None => Returns validation_error
  | Some (ds, suffix) =>
    match lexical_cast_uint64 ds with
    | None => Returns validation_error
    | Some number =>
      let c := match suffix with String c _ => c | EmptyString => Ascii.zero end in
      match set default_ctor number c with
      | Undefined => Undefined
      | Returns (true, bs) => Returns (value_stored bs)
      | Returns (false, _) => Returns validation_error
      end
    end
  end.

End BlockSize.


(** ** The argument checks of [main] *)

Definition EXIT_SUCCESS : Z := 0.
Definition EXIT_FAILURE : Z := 1.

(** What the [try] block around [bpo::store] and [bpo::notify] leaves: the
    exception's message, or the options. [notify] throws unless both required
    options are present, so a parsed command line carries both names. *)
Inductive command_line : Type :=
  | parse_throws (what : string)
  | parsed (help : bool) (input_file_name output_file_name : string)
           (block_size_value : BlockSize.block_size).

(** The streams [main] constructs. *)
Inductive file_op : Type :=
  | open_ifstream (name : string)
  | open_ofstream_trunc (name : string).

Inductive printed : Type :=
  | text (s : string)
  | options_description.

(** Where [main] stands after its checks: it has returned, or both streams
    are open and the block loop starts. *)
Inductive progress : Type :=
  | returned (code : Z)
  | streams_open (input : list byte) (output_file_name : string) (block_size_value : Z).

Record checked : Type := {
  result : progress;
  std_cout : list printed;
  std_cerr : list printed;
  file_ops : list file_op;
  files : gmap string (list byte)
}.

(** [main] from its first line to the second [is_open] check. [fs] holds the
    files that can be opened for reading; [writable] tells whether a path can
    be opened for writing, which creates the file or empties it. Here a file
    is known by the path that was typed: two paths that differ are taken to
    lead to two files. [main_checks_at] below does without that. *)
Definition main_checks (argc : Z) (cl : command_line)
    (fs : gmap string (list byte)) (writable : string → bool) : checked :=
  match cl with
  | parse_throws what =>
      {| result := returned EXIT_FAILURE; std_cout := []; std_cerr := [text what];
         file_ops := []; files := fs |}
  | parsed help input_file_name output_file_name block_size_value =>
    if help || bool_decide (argc = 1) then
      {| result := returned EXIT_SUCCESS; std_cout := [options_description];
         std_cerr := []; file_ops := []; files := fs |}
    else if decide (input_file_name = output_file_name) then
      {| result := returned EXIT_FAILURE; std_cout := [];
         std_cerr := [text "input and output files are same"];
         file_ops := []; files := fs |}
    else
      let info :=
        [text ("input  file = " +:+ input_file_name);
         text ("output file = " +:+ output_file_name);
         text ("block  size = " +:+ pretty (BlockSize.get block_size_value))] in
      match fs !! input_file_name with
      | None =>
          {| result := returned EXIT_FAILURE; std_cout := info;
             std_cerr := [text "can't open input file"];
             file_ops := [open_ifstream input_file_name]; files := fs |}
      | Some input =>
        if writable output_file_name then
          {| result := streams_open input output_file_name (BlockSize.get block_size_value);
             std_cout := info; std_cerr := [];
             file_ops := [open_ifstream input_file_name; open_ofstream_trunc output_file_name];
             files := <[output_file_name := []]> fs |}
        else
          {| result := returned EXIT_FAILURE; std_cout := info;
             std_cerr := [text "can't open output file"];
             file_ops := [open_ifstream input_file_name; open_ofstream_trunc output_file_name];
             files := fs |}
      end
  end.

(** The same lines of [main] when more than one path may lead to a file:
    [resolve] gives the file a path leads to, and [fs] holds the files by
    that name. The comparison of line 171 is between the paths as typed. The
    input stream is opened first and extracts nothing before the loop, so
    what the loop can read is what the file holds once the output stream has
    been opened. *)
Definition main_checks_at (resolve : string → string) (argc : Z) (cl : command_line)
    (fs : gmap string (list byte)) (writable : string → bool) : checked :=
  match cl with
  | parse_throws what =>
      {| result := returned EXIT_FAILURE; std_cout := []; std_cerr := [text what];
         file_ops := []; files := fs |}
  | parsed help input_file_name output_file_name block_size_value =>
    if help || bool_decide (argc = 1) then
      {| result := returned EXIT_SUCCESS; std_cout := [options_description];
         std_cerr := []; file_ops := []; files := fs |}
    else if decide (input_file_name = output_file_name) then
      {| result := returned EXIT_FAILURE; std_cout := [];
         std_cerr := [text "input and output files are same"];
         file_ops := []; files := fs |}
    else
      let info :=
        [text ("input  file = " +:+ input_file_name);
         text ("output file = " +:+ output_file_name);
         text ("block  size = " +:+ pretty (BlockSize.get block_size_value))] in
      match fs !! resolve input_file_name with
      | None =>
          {| result := returned EXIT_FAILURE; std_cout := info;
             std_cerr := [text "can't open input file"];
             file_ops := [open_ifstream input_file_name]; files := fs |}
      | Some input =>
        if writable output_file_name then
          let files' := <[resolve output_file_name := []]> fs in
          {| result :=
               streams_open (default [] (files' !! resolve input_file_name))
                 output_file_name (BlockSize.get block_size_value);
             std_cout := info; std_cerr := [];
             file_ops := [open_ifstream input_file_name; open_ofstream_trunc output_file_name];
             files := files' |}
        else
          {| result := returned EXIT_FAILURE; std_cout := info;
             std_cerr := [text "can't open output file"];
             file_ops := [open_ifstream input_file_name; open_ofstream_trunc output_file_name];
             files := fs |}
      end
  end.

(** ** The block pipeline of [main] *)

Definition BLOCK_CRC_MAP_PROCESSING_SIZE : Z := 100.

(** What a checksum task captures by value. *)
Module task.
Record t : Type := mk {
  buffer_ptr : list byte;
  readed_size : Z;
  block_counter : Z
}.
End task.

(** Exceptions a [try] block of the loop can see. *)
Inductive exception : Type :=
  | bad_alloc
  | other_exception (what : string).

Definition what (e : exception) : string :=
  match e with
  | bad_alloc => "std::bad_alloc"
  | other_exception w => w
  end.

Inductive try_result : Type :=
  | try_ok
  | throws (e : exception).

(** Where the main thread stands. *)
Inductive location : Type :=
  | at_loop_head      (* [while (!input_file.eof())] *)
  | at_check          (* the [lock_guard] and size check that end the loop body *)
  | at_drain          (* [while (last_processed_block_id != block_counter)] *)
  | at_done           (* past [tp.stop()]: [return EXIT_SUCCESS] *)
  | at_exit_failure.  (* [return EXIT_FAILURE] from inside the loop *)

(** The variables of [main] that the loops share, the two streams, and the
    tasks handed to the thread pool that have not yet reached their insert. *)
Record state : Type := {
  input_file : list byte;          (* bytes not yet extracted *)
  eofbit : bool;
  block_counter : Z;
  last_processed_block_id : Z;
  block_crc_map : gmap Z Z;
  output_file_stream : list Z;     (* the four-byte records written, in order *)
  tp : list task.t;
  std_err : list string;
  slept_ms : Z;
  pc : location
}.

Definition with_pc (l : location) (st : state) : state :=
  {| input_file := input_file st; eofbit := eofbit st;
     block_counter := block_counter st;
     last_processed_block_id := last_processed_block_id st;
     block_crc_map := block_crc_map st;
     output_file_stream := output_file_stream st; tp := tp st;
     std_err := std_err st; slept_ms := slept_ms st; pc := l |}.

Definition print_err (s : string) (st : state) : state :=
  {| input_file := input_file st; eofbit := eofbit st;
     block_counter := block_counter st;
     last_processed_block_id := last_processed_block_id st;
     block_crc_map := block_crc_map st;
     output_file_stream := output_file_stream st; tp := tp st;
     std_err := std_err st ++ [s]; slept_ms := slept_ms st; pc := pc st |}.

(** [std::this_thread::sleep_for(std::chrono::milliseconds(ms))] *)
Definition sleep_for (ms : Z) (st : state) : state :=
  {| input_file := input_file st; eofbit := eofbit st;
     block_counter := block_counter st;
     last_processed_block_id := last_processed_block_id st;
     block_crc_map := block_crc_map st;
     output_file_stream := output_file_stream st; tp := tp st;
     std_err := std_err st; slept_ms := slept_ms st + ms; pc := pc st |}.

Definition with_map (m : gmap Z Z) (st : state) : state :=
  {| input_file := input_file st; eofbit := eofbit st;
     block_counter := block_counter st;
     last_processed_block_id := last_processed_block_id st;
     block_crc_map := m;
     output_file_stream := output_file_stream st; tp := tp st;
     std_err := std_err st; slept_ms := slept_ms st; pc := pc st |}.

Definition with_tp (q : list task.t) (st : state) : state :=
  {| input_file := input_file st; eofbit := eofbit st;
     block_counter := block_counter st;
     last_processed_block_id := last_processed_block_id st;
     block_crc_map := block_crc_map st;
     output_file_stream := output_file_stream st; tp := q;
     std_err := std_err st; slept_ms := slept_ms st; pc := pc st |}.

(** One turn of the loop of [crc_saver] that finds the block: the record is
    written and the block id incremented. The map is not touched. *)
Definition save_crc (crc : Z) (st : state) : state :=
  {| input_file := input_file st; eofbit := eofbit st;
     block_counter := block_counter st;
     last_processed_block_id := wrap64 (last_processed_block_id st + 1);
     block_crc_map := block_crc_map st;
     output_file_stream := output_file_stream st ++ [crc]; tp := tp st;
     std_err := std_err st; slept_ms := slept_ms st; pc := pc st |}.

(** The bytes of one record: [write] copies the four bytes of the
    [uint32_t] as they lie in memory, which depends on the machine. *)
Inductive byte_order : Type := little_endian | big_endian.

Definition byte_of_Z (z : Z) : byte :=
  default "000"%byte (Byte.of_N (Z.to_N (z mod 256))).

Definition record_bytes (o : byte_order) (crc : Z) : list byte :=
  let low_first :=
    [byte_of_Z crc; byte_of_Z (Z.shiftr crc 8);
     byte_of_Z (Z.shiftr crc 16); byte_of_Z (Z.shiftr crc 24)] in
  match o with
  | little_endian => low_first
  | big_endian => reverse low_first
  end.

(** The output file as bytes. *)
Definition file_contents (o : byte_order) (st : state) : list byte :=
  output_file_stream st ≫= record_bytes o.

(** The [while (true)] of [crc_saver], at most [fuel] turns. *)
Fixpoint crc_saver_loop (fuel : nat) (st : state) : option state :=
  match fuel with
  | O => None
  | S fuel' =>
    match block_crc_map st !! last_processed_block_id st with
    | Some crc => crc_saver_loop fuel' (save_crc crc st)
    | None => Some st
    end
  end.

(** [crc_saver()]: one turn per entry of the map and one to find the gap. *)
Definition crc_saver (st : state) : option state :=
  crc_saver_loop (S (size (block_crc_map st))) st.

(** [std::map::insert]: the map afterwards and the [.second] of the result. *)
Definition map_insert (k v : Z) (m : gmap Z Z) : gmap Z Z * bool :=
  match m !! k with
  | Some _ => (m, false)
  | None => (<[k := v]> m, true)
  end.

(** [istream::read(s, n)] followed by [gcount()]: the characters stored, what
    stays unread, and whether end-of-file was met before [n] characters. *)
Definition istream_read (n : nat) (unread : list byte) : list byte * list byte * bool :=
  (take n unread, drop n unread, bool_decide (length unread < n)%nat).

Section Pipeline.

(** [boost::crc_32_type]: [process_bytes] over the given bytes, then
    [checksum()]. *)
Variable checksum : list byte → Z.

(** [block_size_value.get()] *)
Variable block_size_value : Z.

(** The [try] block when nothing throws, then the task is built and added to
    the pool and [block_counter] incremented. *)
Definition read_block (st : state) : state :=
  let n := Z.to_nat block_size_value in
  let '(stored, unread, eof) := istream_read n (input_file st) in
  let buffer := stored ++ replicate (n - length stored) "000"%byte in
  let new_task :=
    task.mk buffer (Z.of_nat (length stored)) (block_counter st) in
  {| input_file := unread; eofbit := eof;
     block_counter := wrap64 (block_counter st + 1);
     last_processed_block_id := last_processed_block_id st;
     block_crc_map := block_crc_map st;
     output_file_stream := output_file_stream st;
     tp := tp st ++ [new_task];
     std_err := std_err st; slept_ms := slept_ms st; pc := at_check |}.

(** The [catch (std::exception & e)] of [source/signature.cpp]. *)
Definition loop_body (r : try_result) (st : state) : state :=
  match r with
  | try_ok => read_block st
  | throws e => with_pc at_drain (print_err (what e) st)
  end.

(** The value the task lambda computes. *)
Definition crc_value (t : task.t) : Z :=
  checksum (take (Z.to_nat (task.readed_size t)) (task.buffer_ptr t)).

(** The task lambda of [source/signature.cpp], from its [lock_guard] on. *)
Definition run_task (t : task.t) (st : state) : state :=
  let '(m, inserted) :=
    map_insert (task.block_counter t) (crc_value t) (block_crc_map st) in
  if inserted then with_map m st
  else print_err ("block " +:+ pretty (task.block_counter t) +:+ " insert error") st.

(** The loop body of the version of the file that catches [bad_alloc] apart:
    [sleep_for] and [continue] on [bad_alloc]; on any other exception a
    message, [tp.stop()] and [return EXIT_FAILURE]. *)
Definition loop_body_retry (r : try_result) (st : state) : state :=
  match r with
  | try_ok => read_block st
  | throws bad_alloc => sleep_for 10 st
  | throws e => with_pc at_exit_failure (print_err ("unexpected exception: " +:+ what e) st)
  end.

(** The task lambda of that version, from its [lock_guard] on: the result of
    [insert] is dropped. The node of the map is taken to be allocated at the
    first try. *)
Definition run_task_retry (t : task.t) (st : state) : state :=
  with_map (map_insert (task.block_counter t) (crc_value t) (block_crc_map st)).1 st.

(** A step is taken by the main thread, whose [try] block meets [r] when it
    is entered, or by the pool, which brings the task at position [j] to the
    end of its lambda. *)
Inductive event : Type :=
  | main_thread (r : try_result)
  | worker_thread (j : nat).

Definition exec_with (body : try_result → state → state)
    (lambda : task.t → state → state) (e : event) (st : state) : option state :=
  match e with
  | worker_thread j =>
    match tp st !! j with
    | Some t => Some (lambda t (with_tp (delete j (tp st)) st))
    | None => None
    end
  | main_thread r =>
    match pc st with
    | at_loop_head =>
        if eofbit st then Some (with_pc at_drain st) else Some (body r st)
    | at_check =>
        if decide (BLOCK_CRC_MAP_PROCESSING_SIZE ≤ Z.of_nat (size (block_crc_map st)))
        then with_pc at_loop_head <$> crc_saver st
        else Some (with_pc at_loop_head st)
    | at_drain =>
        if decide (last_processed_block_id st ≠ block_counter st)
        then crc_saver (sleep_for 10 st)
        else Some (with_pc at_done st)
    | at_done | at_exit_failure => None
    end
  end.

Definition exec : event → state → option state := exec_with loop_body run_task.
Definition exec_retry : event → state → option state :=
  exec_with loop_body_retry run_task_retry.

Fixpoint run (trace : list event) (st : state) : option state :=
  match trace with
  | [] => Some st
  | e :: trace' =>
    match exec e st with
    | Some st' => run trace' st'
    | None => None
    end
  end.

End Pipeline.

(** The state when the loop is first reached. *)
Definition init (input : list byte) : state :=
  {| input_file := input; eofbit := false; block_counter := 0;
     last_processed_block_id := 0; block_crc_map := ∅;
     output_file_stream := []; tp := []; std_err := []; slept_ms := 0;
     pc := at_loop_head |}.

Definition no_throw (e : event) : Prop :=
  match e with main_thread (throws _) => False | _ => True end.

(** The bytes of block [i]: what the read numbered [i] extracts. *)
Definition block (bs : nat) (input : list byte) (i : nat) : list byte :=
  take bs (drop (i * bs) input).

(** The number of reads the loop makes on an input. *)
Definition reads (bs : nat) (input : list byte) : nat :=
  (length input / bs + 1)%nat.

(** What the reads of the loop extract, one entry for each read. When the
    input ends where a block ends, and when it is empty, the last entry is
    the read that extracts nothing. *)
Definition blocks (bs : nat) (input : list byte) : list (list byte) :=
  block bs input <$> seq 0 (reads bs input).

(** Records of the map that [crc_saver] has not written yet. *)
Definition unwritten (st : state) : nat :=
  size (filter (λ kv, last_processed_block_id st ≤ kv.1) (block_crc_map st)).

(** A schedule for [n] reads, [n] below the size that starts [crc_saver] in
    the loop: each task finishes before the size check, and the drain loop
    takes one turn. *)
Definition in_turn (n : nat) : list event :=
  mjoin (replicate n [main_thread try_ok; worker_thread 0; main_thread try_ok])
    ++ [main_thread try_ok; main_thread try_ok; main_thread try_ok].

(** CRC-32 as [boost::crc_32_type] computes it: reflected polynomial
    [0xEDB88320], initial remainder and final xor [0xFFFFFFFF]. *)
Definition crc_32_bit (r : Z) : Z :=
  if Z.testbit r 0 then Z.lxor (Z.shiftr r 1) 3988292384 else Z.shiftr r 1.

Definition crc_32_byte (r : Z) (b : byte) : Z :=
  Nat.iter 8 crc_32_bit (Z.lxor r (Z.of_N (Byte.to_N b))).

Definition crc_32 (data : list byte) : Z :=
  Z.lxor (foldl crc_32_byte 4294967295 data) 4294967295.

(** ** What [crc_saver] leaves *)

(** The values under the block ids [last_processed_block_id], ... taken [n]
    times, in that order. *)
Definition run_values (st : state) (n : nat) : list Z :=
  (λ i : nat,
     default 0 (block_crc_map st !! wrap64 (last_processed_block_id st + Z.of_nat i)))
    <$> seq 0 n.

(** The state with those [n] values written and the block id moved past
    them; the map and everything else as before. *)
Definition after_saving (n : nat) (st : state) : state :=
  {| input_file := input_file st; eofbit := eofbit st;
     block_counter := block_counter st;
     last_processed_block_id := wrap64 (last_processed_block_id st + Z.of_nat n);
     block_crc_map := block_crc_map st;
     output_file_stream := output_file_stream st ++ run_values st n; tp := tp st;
     std_err := std_err st; slept_ms := slept_ms st; pc := pc st |}.

(** A store and a cursor alone, and the store after a list of inserts. *)
Definition store (m : gmap Z Z) (cursor : Z) : state :=
  {| input_file := []; eofbit := false; block_counter := 0;
     last_processed_block_id := cursor; block_crc_map := m;
     output_file_stream := []; tp := []; std_err := []; slept_ms := 0;
     pc := at_drain |}.

Definition insert_all (l : list (Z * Z)) : gmap Z Z :=
  foldl (λ m kv, (map_insert kv.1 kv.2 m).1) ∅ l.

(** ** What holds between the steps of a run *)

(** After [k] reads with [c] records written: the counters and the stream
    position agree with [k] and [c], the records written are the checksums of
    the first [c] blocks, every map entry and every task still in the pool
    belongs to a block already read, and every such block is in one of the
    two. *)
Record Inv (checksum : list byte → Z) (bs : nat) (input : list byte)
    (k c : nat) (st : state) : Prop := {
  inv_counter : block_counter st = Z.of_nat k;
  inv_reads : (k ≤ reads bs input)%nat;
  inv_input : input_file st = drop (k * bs) input;
  inv_eof : eofbit st = bool_decide (k = reads bs input);
  inv_cursor : last_processed_block_id st = Z.of_nat c;
  inv_cursor_le : (c ≤ k)%nat;
  inv_output :
    output_file_stream st = (λ i, checksum (block bs input i)) <$> seq 0 c;
  inv_map : ∀ i v, block_crc_map st !! i = Some v →
    ∃ j : nat, i = Z.of_nat j ∧ (j < k)%nat ∧ v = checksum (block bs input j);
  inv_tasks : ∀ t, t ∈ tp st →
    ∃ j : nat, task.block_counter t = Z.of_nat j ∧ (j < k)%nat
      ∧ length (task.buffer_ptr t) = bs
      ∧ task.readed_size t = Z.of_nat (length (block bs input j))
      ∧ take (length (block bs input j)) (task.buffer_ptr t) = block bs input j
      ∧ block_crc_map st !! Z.of_nat j = None;
  inv_nodup : NoDup (task.block_counter <$> tp st);
  inv_cover : ∀ j : nat, (j < k)%nat →
    is_Some (block_crc_map st !! Z.of_nat j)
    ∨ Z.of_nat j ∈ task.block_counter <$> tp st;
  inv_err : std_err st = [];
  inv_pc_drain : pc st = at_drain ∨ pc st = at_done → k = reads bs input;
  inv_pc_done : pc st = at_done → c = k;
  inv_pc_fail : pc st ≠ at_exit_failure
}.

(** ** Sample runs *)

Definition sample : list byte := list_byte_of_string "signature of a file".

(** Three blocks are read, then the tasks finish last one first, with a
    fruitless turn of the drain loop in between. *)
Definition last_one_first : list event :=
  [main_thread try_ok; main_thread try_ok;
   main_thread try_ok; main_thread try_ok;
   main_thread try_ok; main_thread try_ok;
   main_thread try_ok;
   worker_thread 2; worker_thread 1;
   main_thread try_ok;
   worker_thread 0;
   main_thread try_ok; main_thread try_ok].

(** The task of block 0 never finishes while [n] blocks are read and every
    other task finishes at once. *)
Definition first_one_stuck (n : nat) : list event :=
  [main_thread try_ok; main_thread try_ok]
    ++ mjoin (replicate (n - 1)
                [main_thread try_ok; worker_thread 1; main_thread try_ok]).

(** A checksum that tells how many bytes it was given. *)
Definition byte_count (data : list byte) : Z := Z.of_nat (length data).

(** Three reads and their size checks, no task finished yet. *)
Definition three_reads : list event := replicate 6 (main_thread try_ok).

(** A hundred reads, each task finished before the size check that follows
    its read, up to the size check after the hundredth. *)
Definition hundred_reads : list event :=
  mjoin (replicate 99 [main_thread try_ok; worker_thread 0; main_thread try_ok])
    ++ [main_thread try_ok; worker_thread 0].

(** An input of [m] blocks of [bs] zero bytes. *)
Definition zero_blocks (bs m : nat) : list byte := replicate (m * bs) "000"%byte.

(** After [i] reads of an input of [n] blocks of [bs] zero bytes, with the
    task of block 0 still in the pool and every other task finished. *)
Record Stuck (bs n i : nat) (st : state) : Prop := {
  stuck_pc : pc st = at_loop_head;
  stuck_eof : eofbit st = false;
  stuck_input : input_file st = zero_blocks bs (n - i);
  stuck_counter : block_counter st = Z.of_nat i;
  stuck_cursor : last_processed_block_id st = 0;
  stuck_output : output_file_stream st = [];
  stuck_pool : ∃ t0, tp st = [t0] ∧ task.block_counter t0 = 0;
  stuck_keys : ∀ j, is_Some (block_crc_map st !! j) ↔ 1 ≤ j < Z.of_nat i;
  stuck_size : size (block_crc_map st) = (i - 1)%nat
}.

(** ** The option grammar, as the documentation words it *)

(** The suffix is absent or one of K, M, G, which scale by 1024, 1024² and
    1024³. *)
Definition suffix_scale (suffix : ascii) (scale : Z) : Prop :=
  (suffix = Ascii.zero ∧ scale = 1)
  ∨ (suffix = "K"%char ∧ scale = 1024)
  ∨ (suffix = "M"%char ∧ scale = 1024 * 1024)
  ∨ (suffix = "G"%char ∧ scale = 1024 * 1024 * 1024).

(** The number of records the documentation promises: the input size over
    the block size, rounded up. *)
Definition ceil_div (a b : nat) : nat := ((a + b - 1) / b)%nat.

(** The blocks of an input as the documentation has them: slices of the
    block size that follow one another, the last one what is left of the
    input; [ceil_div (length input) bs] of them, none for the empty input. *)
Definition input_blocks (bs : nat) (input : list byte) : list (list byte) :=
  block bs input <$> seq 0 (ceil_div (length input) bs).

(** What the loop reads after the last of these blocks: nothing more when
    the last block is short, and one read of no bytes when the input ends
    where a block ends. *)
Definition read_past_the_end (bs : nat) (input : list byte) : list (list byte) :=
  if decide (length input `mod` bs = 0)%nat then [[]] else [].

(** ** Option strings *)

(** A decimal digit as a character, a list of digits written before a rest,
    the value the digits stand for, and the string of a suffix character,
    empty for NUL. *)
Definition digit_char (d : Z) : ascii := ascii_of_N (Z.to_N (48 + d)).

Definition digits_string (ds : list Z) (rest : string) : string :=
  foldr (λ d s, String (digit_char d) s) rest ds.

Definition is_digit (d : Z) : Prop := 0 ≤ d ≤ 9.

Definition decimal (ds : list Z) : Z := foldl (λ acc d, 10 * acc + d) 0 ds.

Definition suffix_string (c : ascii) : string :=
  if decide (c = Ascii.zero) then EmptyString else String c EmptyString.

(** ** Runs with exceptions, and runs of the other version *)

(** A state with its location and its standard error replaced, and with both
    cleared. *)
Definition restore (l : location) (err : list string) (st : state) : state :=
  {| input_file := input_file st; eofbit := eofbit st;
     block_counter := block_counter st;
     last_processed_block_id := last_processed_block_id st;
     block_crc_map := block_crc_map st;
     output_file_stream := output_file_stream st; tp := tp st;
     std_err := err; slept_ms := slept_ms st; pc := l |}.

Definition quiet (st : state) : state := restore at_check [] st.

(** What every step keeps, with or without exceptions: the invariant of the
    exception-free runs apart from the location and standard error, a record
    in the map for every block written, and every block read accounted for
    in the map or in the pool. *)
Record Kept (checksum : list byte → Z) (bs : nat) (input : list byte)
    (k c : nat) (st : state) : Prop := {
  kept_inv : Inv checksum bs input k c (quiet st);
  kept_done : pc st = at_done → c = k;
  kept_written : ∀ j : nat, (j < c)%nat →
    is_Some (block_crc_map st !! Z.of_nat j);
  kept_count : (size (block_crc_map st) + length (tp st) = k)%nat
}.

(** Runs of the version that retries. *)
Fixpoint run_retry (checksum : list byte → Z) (block_size_value : Z)
    (trace : list event) (st : state) : option state :=
  match trace with
  | [] => Some st
  | e :: trace' =>
    match exec_retry checksum block_size_value e st with
    | Some st' => run_retry checksum block_size_value trace' st'
    | None => None
    end
  end.

Definition no_other_exception (e : event) : Prop :=
  match e with main_thread (throws (other_exception _)) => False | _ => True end.

(** One block is read, the allocation for the second fails, and the task of
    the first finishes while the drain loop waits. *)
Definition alloc_fails_at_second : list event :=
  [main_thread try_ok; main_thread try_ok;
   main_thread (throws bad_alloc);
   main_thread try_ok;
   worker_thread 0;
   main_thread try_ok; main_thread try_ok].

(** Two allocations fail and are tried again; the three tasks finish when
    the input has been read. *)
Definition retried_twice : list event :=
  [main_thread (throws bad_alloc);
   main_thread try_ok; main_thread try_ok;
   main_thread (throws bad_alloc);
   main_thread try_ok; main_thread try_ok;
   main_thread try_ok; main_thread try_ok;
   main_thread try_ok;
   worker_thread 0; worker_thread 0; worker_thread 0;
   main_thread try_ok; main_thread try_ok].

(** * Properties *)

(** ** Machine integers *)

Lemma wrap64_small z : is_uint64 z → wrap64 z = z.
Proof. unfold is_uint64, uint64_max, wrap64. intros ?. apply Z.mod_small. lia. Qed.

Lemma wrap64_range z : is_uint64 (wrap64 z).
Proof.
  unfold is_uint64, uint64_max, wrap64.
  pose proof (Z.mod_pos_bound z (2 ^ 64)). lia.
Qed.

Lemma wrap64_add_l a b : wrap64 (wrap64 a + b) = wrap64 (a + b).
Proof. unfold wrap64. apply Zplus_mod_idemp_l. Qed.

(** ** [block_size] *)

Lemma suffix_multiplier_scale suffix tmp :
  BlockSize.suffix_multiplier suffix = Some tmp ↔ suffix_scale suffix tmp.
Proof.
  split.
  - unfold BlockSize.suffix_multiplier, suffix_scale.
    repeat case_decide; intros [= <-]; subst.
    + left. done.
    + right; left. done.
    + right; right; left. done.
    + right; right; right. done.
  - intros [[-> ->]|[[-> ->]|[[-> ->]|[-> ->]]]]; reflexivity.
Qed.

Lemma suffix_scale_bounds suffix tmp : suffix_scale suffix tmp → 1 ≤ tmp ≤ 1024 * 1024 * 1024.
Proof. intros [[_ ->]|[[_ ->]|[[_ ->]|[_ ->]]]]; lia. Qed.

(** With a nonzero number the two range checks pass exactly when the product
    fits, and then [set] returns. *)
Lemma set_nonzero self number suffix tmp :
  is_uint64 number → number ≠ 0 → suffix_scale suffix tmp →
  BlockSize.set self number suffix =
    if decide (number * tmp ≤ uint64_max ∧ 1024 ≤ number * tmp)
    then Returns (true, {| BlockSize.number_ := number; BlockSize.suffix_ := tmp |})
    else Returns (false, self).
Proof.
  intros Hn Hnz Hs. pose proof (suffix_scale_bounds _ _ Hs) as Ht.
  apply suffix_multiplier_scale in Hs.
  unfold BlockSize.set, udiv. rewrite Hs.
  unfold is_uint64 in Hn.
  assert (Hmax : 0 < uint64_max) by (unfold uint64_max; lia).
  assert (Hdiv : ∀ b q, 0 < b → uint64_max / b < q ↔ uint64_max < b * q).
  { intros b q Hb. split; intros Hlt.
    - pose proof (Z.div_mod uint64_max b ltac:(lia)).
      pose proof (Z.mod_pos_bound uint64_max b Hb). nia.
    - apply Z.div_lt_upper_bound; lia. }
  pose proof (Hdiv tmp number ltac:(lia)) as Hq1.
  pose proof (Hdiv number tmp ltac:(lia)) as Hq2.
  assert (Hw : number * tmp ≤ uint64_max → wrap64 (number * tmp) = number * tmp).
  { intros ?. apply wrap64_small. unfold is_uint64. lia. }
  unfold BlockSize.BLOCK_SIZE_KILOBYTE.
  rewrite (decide_False (P := tmp = 0)) by lia.
  destruct (decide (uint64_max / tmp < number)) as [H1|H1].
  { rewrite decide_False by lia. done. }
  rewrite (decide_False (P := number = 0)) by lia.
  destruct (decide (uint64_max / number < tmp)) as [H2|H2]; [lia|].
  rewrite Hw by lia.
  destruct (decide (number * tmp < 1024)).
  - rewrite decide_False by lia. done.
  - rewrite decide_True by lia. done.
Qed.

(** With the number zero and a suffix the grammar knows, the second check
    divides by zero. *)
Lemma set_zero self suffix tmp :
  suffix_scale suffix tmp → BlockSize.set self 0 suffix = Undefined.
Proof.
  intros Hs. pose proof (suffix_scale_bounds _ _ Hs) as Ht.
  apply suffix_multiplier_scale in Hs.
  unfold BlockSize.set, udiv. rewrite Hs.
  rewrite decide_False by lia.
  assert (0 ≤ uint64_max / tmp) by (apply Z.div_pos; unfold uint64_max; lia).
  rewrite decide_False by lia. done.
Qed.

Lemma set_unknown_suffix self number suffix :
  (∀ tmp, ¬ suffix_scale suffix tmp) →
  BlockSize.set self number suffix = Returns (false, self).
Proof.
  intros Hs. unfold BlockSize.set.
  destruct (BlockSize.suffix_multiplier suffix) as [tmp|] eqn:E; [|done].
  apply suffix_multiplier_scale in E. destruct (Hs _ E).
Qed.

Lemma suffix_scale_fun suffix t1 t2 :
  suffix_scale suffix t1 → suffix_scale suffix t2 → t1 = t2.
Proof.
  rewrite <- !suffix_multiplier_scale. congruence.
Qed.

(** C8. [block_size::set(number, suffix)] returns true exactly when the
    suffix is absent or one of K, M, G, the product of the number and the
    multiplier fits in 64 bits and is at least 1024; then [get()] returns the
    product; when [set] returns false the object is unchanged. *)
Theorem set_true_iff_in_range self number suffix :
  is_uint64 number →
  ((∃ self', BlockSize.set self number suffix = Returns (true, self'))
     ↔ ∃ scale, suffix_scale suffix scale
          ∧ number * scale ≤ uint64_max ∧ 1024 ≤ number * scale)
  ∧ (∀ self', BlockSize.set self number suffix = Returns (true, self') →
       ∃ scale, suffix_scale suffix scale ∧ BlockSize.get self' = number * scale)
  ∧ (∀ self', BlockSize.set self number suffix = Returns (false, self') →
       self' = self).
Proof.
  intros Hn.
  destruct (BlockSize.suffix_multiplier suffix) as [tmp|] eqn:E.
  - apply suffix_multiplier_scale in E.
    pose proof (suffix_scale_bounds _ _ E) as Ht.
    destruct (decide (number = 0)) as [->|Hnz].
    + rewrite (set_zero self suffix tmp E).
      split; [split|split]; try (intros ? [=]; fail).
      * intros [? [=]].
      * intros (scale & _ & _ & ?). lia.
    + rewrite (set_nonzero self number suffix tmp Hn Hnz E).
      case_decide as Hd.
      * split; [split|split].
        -- intros _. exists tmp. tauto.
        -- eauto.
        -- intros self' [= <-]. exists tmp. split; [done|].
           unfold BlockSize.get. simpl. apply wrap64_small.
           unfold is_uint64 in *. lia.
        -- intros ? [=].
      * split; [split|split].
        -- intros [? [=]].
        -- intros (scale & Hs & ? & ?).
           rewrite (suffix_scale_fun _ _ _ Hs E) in *. tauto.
        -- intros ? [=].
        -- intros ? [= <-]. done.
  - assert (Hs : ∀ tmp, ¬ suffix_scale suffix tmp).
    { intros tmp Hs. apply suffix_multiplier_scale in Hs. congruence. }
    rewrite (set_unknown_suffix self number suffix Hs).
    split; [split|split].
    + intros [? [=]].
    + intros (scale & ? & _). destruct (Hs scale); done.
    + intros ? [=].
    + intros ? [= <-]. done.
Qed.

Lemma set_true_iff_in_range_witness :
  is_uint64 64
  ∧ (∃ self', BlockSize.set BlockSize.default_ctor 64 "K" = Returns (true, self'))
  ∧ (∀ self', BlockSize.set BlockSize.default_ctor 64 "K" = Returns (true, self') →
       ∃ scale, suffix_scale "K" scale ∧ BlockSize.get self' = 64 * scale).
Proof.
  assert (H : is_uint64 64) by (unfold is_uint64, uint64_max; lia).
  split; [exact H|].
  destruct (set_true_iff_in_range BlockSize.default_ctor 64 "K" H) as (Hiff & Hget & _).
  split; [|exact Hget].
  apply Hiff. exists 1024. split; [|unfold uint64_max; lia].
  right; left. split; reflexivity.
Defined.

(** C10. [set] does not always get past its range checks: with the number
    zero and an absent or known suffix the second check evaluates
    [max / number], a division by zero, and the option string "0" reaches it
    through [validate]. *)
Theorem set_zero_divides_by_zero :
  udiv uint64_max 0 = Undefined
  ∧ (∀ self, BlockSize.set self 0 Ascii.zero = Undefined)
  ∧ (∀ self, BlockSize.set self 0 "K" = Undefined)
  ∧ BlockSize.validate "0" = Undefined
  ∧ BlockSize.validate "0G" = Undefined.
Proof. repeat split. Qed.

Example validate_64K :
  BlockSize.validate "64K" =
    Returns (BlockSize.value_stored {| BlockSize.number_ := 64; BlockSize.suffix_ := 1024 |}).
Proof. reflexivity. Qed.

Example validate_512 : BlockSize.validate "512" = Returns BlockSize.validation_error.
Proof. reflexivity. Qed.

Example validate_bar : BlockSize.validate "4096|" = Returns BlockSize.validation_error.
Proof. reflexivity. Qed.

Example validate_too_long :
  BlockSize.validate "18446744073709551616" = Returns BlockSize.validation_error.
Proof. reflexivity. Qed.

(** ** The argument checks of [main] *)

(** With equal paths no stream is ever constructed, whatever else is on the
    command line. *)
Lemma same_paths_open_nothing argc help name bs fs writable :
  let r := main_checks argc (parsed help name name bs) fs writable in
  file_ops r = [] ∧ files r = fs ∧ ∃ code, result r = returned code.
Proof.
  simpl. destruct (help || bool_decide (argc = 1)); simpl.
  - eauto.
  - rewrite decide_True by done. simpl. eauto.
Qed.




Example different_paths_open_both :
  let r := main_checks 5 (parsed false "in" "out" (BlockSize.from_number 1048576))
             {["in" := ["a"%byte]]} (λ _, true) in
  result r = streams_open ["a"%byte] "out" 1048576
  ∧ file_ops r = [open_ifstream "in"; open_ofstream_trunc "out"]
  ∧ files r !! "out" = Some [].
Proof. repeat split. Qed.

(** ** [crc_saver] *)

Lemma wrap64_next c (i : nat) :
  wrap64 (wrap64 (c + 1) + Z.of_nat i) = wrap64 (c + Z.of_nat (S i)).
Proof. rewrite wrap64_add_l. f_equal. lia. Qed.

Lemma run_values_save_crc crc st n :
  block_crc_map st !! last_processed_block_id st = Some crc →
  is_uint64 (last_processed_block_id st) →
  [crc] ++ run_values (save_crc crc st) n = run_values st (S n).
Proof.
  intros E Hu. unfold run_values. simpl.
  rewrite Z.add_0_r, (wrap64_small _ Hu), E. simpl. f_equal.
  rewrite <- fmap_S_seq, <- list_fmap_compose.
  apply list_fmap_ext. intros _ i _. simpl. by rewrite wrap64_next.
Qed.

Lemma after_saving_0 st : is_uint64 (last_processed_block_id st) → after_saving 0 st = st.
Proof.
  intros Hu. destruct st. unfold after_saving, run_values. simpl in *.
  rewrite Z.add_0_r, (wrap64_small _ Hu), app_nil_r. done.
Qed.

Lemma after_saving_save_crc crc st n :
  block_crc_map st !! last_processed_block_id st = Some crc →
  is_uint64 (last_processed_block_id st) →
  after_saving n (save_crc crc st) = after_saving (S n) st.
Proof.
  intros E Hu. unfold after_saving.
  rewrite <- (run_values_save_crc crc st n E Hu).
  simpl. rewrite wrap64_next, <- app_assoc. done.
Qed.

(** The loop either meets a gap within its fuel, having written the run
    before the gap, or finds an entry at every turn. *)
Lemma crc_saver_loop_run fuel : ∀ st,
  is_uint64 (last_processed_block_id st) →
  (∃ n, (n < fuel)%nat
     ∧ (∀ i : nat, (i < n)%nat →
          is_Some (block_crc_map st !! wrap64 (last_processed_block_id st + Z.of_nat i)))
     ∧ block_crc_map st !! wrap64 (last_processed_block_id st + Z.of_nat n) = None
     ∧ crc_saver_loop fuel st = Some (after_saving n st))
  ∨ ((∀ i : nat, (i < fuel)%nat →
        is_Some (block_crc_map st !! wrap64 (last_processed_block_id st + Z.of_nat i)))
     ∧ crc_saver_loop fuel st = None).
Proof.
  induction fuel as [|fuel IH]; intros st Hu.
  - right. split; [lia|done].
  - simpl. destruct (block_crc_map st !! last_processed_block_id st) as [crc|] eqn:E.
    + assert (Hfirst : ∀ i : nat, (i < 1)%nat →
        is_Some (block_crc_map st !! wrap64 (last_processed_block_id st + Z.of_nat i))).
      { intros i Hi. replace i with 0%nat by lia.
        rewrite Z.add_0_r, (wrap64_small _ Hu), E. eauto. }
      destruct (IH (save_crc crc st) (wrap64_range _))
        as [(n & Hn & Hall & Hgap & Hres)|(Hall & Hres)]; simpl in *.
      * left. exists (S n). split; [lia|]. split; [|split].
        -- intros [|i] Hi; [apply Hfirst; lia|].
           rewrite <- wrap64_next. apply Hall. lia.
        -- by rewrite <- wrap64_next.
        -- by rewrite Hres, after_saving_save_crc.
      * right. split; [|done].
        intros [|i] Hi; [apply Hfirst; lia|].
        rewrite <- wrap64_next. apply Hall. lia.
    + left. exists 0%nat. split; [lia|]. split; [intros; lia|]. split.
      * by rewrite Z.add_0_r, (wrap64_small _ Hu).
      * by rewrite after_saving_0.
Qed.

(** Block ids that are all in the map are no more than its entries, as long
    as the ids do not come round again. *)
Lemma run_within_size (m : gmap Z Z) c (k : nat) :
  Z.of_nat k ≤ 2 ^ 64 →
  (∀ i : nat, (i < k)%nat → is_Some (m !! wrap64 (c + Z.of_nat i))) →
  (k ≤ size m)%nat.
Proof.
  intros Hk Hall.
  set (keys := (λ i : nat, wrap64 (c + Z.of_nat i)) <$> seq 0 k).
  assert (Hnd : NoDup keys).
  { apply NoDup_fmap_2_strong; [|apply NoDup_seq].
    intros i j Hi Hj Heq. apply elem_of_seq in Hi, Hj.
    unfold wrap64 in Heq.
    pose proof (Z.div_mod (c + Z.of_nat i) (2 ^ 64) ltac:(lia)) as Hi'.
    pose proof (Z.div_mod (c + Z.of_nat j) (2 ^ 64) ltac:(lia)) as Hj'.
    rewrite Heq in Hi'.
    assert (Hq : Z.of_nat i - Z.of_nat j =
                 2 ^ 64 * ((c + Z.of_nat i) / 2 ^ 64 - (c + Z.of_nat j) / 2 ^ 64)) by lia.
    revert Hq. generalize ((c + Z.of_nat i) / 2 ^ 64 - (c + Z.of_nat j) / 2 ^ 64).
    intros q Hq. assert (q = 0) by lia. lia. }
  assert (Hsub : keys ⊆+ elements (dom m)).
  { apply NoDup_submseteq; [done|]. intros x Hx.
    apply list_elem_of_fmap in Hx as (i & -> & Hi). apply elem_of_seq in Hi.
    apply elem_of_elements, elem_of_dom, Hall. lia. }
  apply submseteq_length in Hsub.
  unfold keys in Hsub. rewrite length_fmap, length_seq in Hsub.
  rewrite <- size_dom. done.
Qed.

Lemma crc_saver_returns st :
  is_uint64 (last_processed_block_id st) →
  Z.of_nat (size (block_crc_map st)) < 2 ^ 64 →
  ∃ n : nat,
    (n ≤ size (block_crc_map st))%nat
    ∧ (∀ i : nat, (i < n)%nat →
       is_Some (block_crc_map st !! wrap64 (last_processed_block_id st + Z.of_nat i)))
    ∧ block_crc_map st !! wrap64 (last_processed_block_id st + Z.of_nat n) = None
    ∧ crc_saver st = Some (after_saving n st).
Proof.
  intros Hu Hsize. unfold crc_saver.
  destruct (crc_saver_loop_run (S (size (block_crc_map st))) st Hu)
    as [(n & Hn & Hall & Hgap & Hres)|(Hall & _)].
  - exists n. split; [lia|done].
  - apply run_within_size in Hall; lia.
Qed.

Lemma insert_all_three a b c l :
  l ≡ₚ [(0, a); (1, b); (2, c)] →
  insert_all l = <[0 := a]> (<[1 := b]> (<[2 := c]> ∅)).
Proof.
  intros Hl. symmetry in Hl. apply permutations_Permutation in Hl.
  cbn in Hl.
  repeat (apply elem_of_cons in Hl as [->|Hl]);
    [..|by apply elem_of_nil in Hl];
    apply map_eq; intros i; unfold insert_all, map_insert; simpl;
    repeat (rewrite ?lookup_insert, ?lookup_empty; simpl;
            repeat case_decide; try lia; simpl); done.
Qed.

Lemma insert_all_two b c l :
  l ≡ₚ [(1, b); (2, c)] → insert_all l !! 0 = None.
Proof.
  intros Hl. symmetry in Hl. apply permutations_Permutation in Hl.
  cbn in Hl.
  repeat (apply elem_of_cons in Hl as [->|Hl]);
    [..|by apply elem_of_nil in Hl];
    unfold insert_all, map_insert; simpl;
    repeat (rewrite ?lookup_insert, ?lookup_empty; simpl;
            repeat case_decide; try lia; simpl); done.
Qed.

(** C1, as amended. For every map and block id, [crc_saver] returns, having
    written exactly the values under [last_processed_block_id], the id after
    it, and so on for as long as each is in the map, in that order; it stops
    at the first id that is missing, leaves [last_processed_block_id] there,
    and writes nothing when the first id is missing. The map is left as it
    was: no record is taken out. After the ids 0, 1, 2 are inserted in any
    order, [crc_saver] from 0 writes their three values in the order 0, 1, 2;
    with only 1 and 2 inserted it writes nothing. *)
Theorem crc_saver_writes_the_run :
  (∀ st,
     is_uint64 (last_processed_block_id st) →
     Z.of_nat (size (block_crc_map st)) < 2 ^ 64 →
     ∃ n : nat,
       (∀ i : nat, (i < n)%nat →
          is_Some (block_crc_map st !! wrap64 (last_processed_block_id st + Z.of_nat i)))
       ∧ block_crc_map st !! wrap64 (last_processed_block_id st + Z.of_nat n) = None
       ∧ crc_saver st = Some (after_saving n st)
       ∧ block_crc_map (after_saving n st) = block_crc_map st
       ∧ (block_crc_map st !! last_processed_block_id st = None →
            crc_saver st = Some st))
  ∧ (∀ a b c l, l ≡ₚ [(0, a); (1, b); (2, c)] →
       output_file_stream <$> crc_saver (store (insert_all l) 0) = Some [a; b; c])
  ∧ (∀ b c l, l ≡ₚ [(1, b); (2, c)] →
       output_file_stream <$> crc_saver (store (insert_all l) 0) = Some []).
Proof.
  split; [|split].
  - intros st Hu Hsize.
    destruct (crc_saver_returns st Hu Hsize) as (n & _ & Hall & Hgap & Hres).
    exists n. repeat split; try done.
    intros Hnone. destruct n as [|n].
    + by rewrite Hres, after_saving_0.
    + destruct (Hall 0%nat ltac:(lia)) as [v Hv].
      rewrite Z.add_0_r, (wrap64_small _ Hu), Hnone in Hv. done.
  - intros a b c l Hl. rewrite (insert_all_three a b c l Hl). reflexivity.
  - intros b c l Hl. unfold crc_saver.
    generalize (size (block_crc_map (store (insert_all l) 0))). intros k.
    simpl. by rewrite (insert_all_two b c l Hl).
Qed.

Lemma crc_saver_writes_the_run_witness :
  let st := store (<[5 := 50]> (<[4 := 40]> (<[7 := 70]> ∅))) 4 in
  is_uint64 (last_processed_block_id st)
  ∧ Z.of_nat (size (block_crc_map st)) < 2 ^ 64
  ∧ ∃ n : nat, crc_saver st = Some (after_saving n st)
      ∧ block_crc_map st !! wrap64 (last_processed_block_id st + Z.of_nat n) = None.
Proof.
  intros st.
  assert (H1 : is_uint64 (last_processed_block_id st))
    by (unfold is_uint64, uint64_max; simpl; lia).
  assert (H2 : Z.of_nat (size (block_crc_map st)) < 2 ^ 64)
    by (vm_compute; reflexivity).
  split; [exact H1|]. split; [exact H2|].
  destruct (proj1 crc_saver_writes_the_run st H1 H2) as (n & _ & Hgap & Hres & _).
  exists n. split; [exact Hres|exact Hgap].
Defined.

(** C1, as stated, fails in one respect: the records [crc_saver] writes stay
    in the map. Here the three records are written in order and all three are
    still there afterwards. *)
Lemma crc_saver_keeps_the_records :
  ∃ st', crc_saver (store (insert_all [(2, 12); (0, 10); (1, 11)]) 0) = Some st'
    ∧ output_file_stream st' = [10; 11; 12]
    ∧ last_processed_block_id st' = 3
    ∧ block_crc_map st' !! 0 = Some 10
    ∧ size (block_crc_map st') = 3%nat.
Proof. eexists. split; [reflexivity|]. repeat split. Qed.

Example crc_saver_stops_at_gap :
  output_file_stream <$> crc_saver (store (insert_all [(0, 10); (1, 11); (3, 13)]) 0)
    = Some [10; 11].
Proof. reflexivity. Qed.

Example crc_saver_wraps_round :
  (λ st, (output_file_stream st, last_processed_block_id st))
    <$> crc_saver (store (insert_all [(0, 10); (uint64_max, 99)]) uint64_max)
    = Some ([99; 10], 1).
Proof. reflexivity. Qed.

(** ** The reads of the loop *)

Lemma lt_reads (bs len k : nat) :
  (0 < bs)%nat → (k < len / bs + 1)%nat ↔ (k * bs ≤ len)%nat.
Proof.
  intros Hbs.
  pose proof (Nat.div_mod_eq len bs).
  pose proof (Nat.mod_upper_bound len bs ltac:(lia)).
  split; intros ?; nia.
Qed.

Lemma last_read (bs len k : nat) :
  (0 < bs)%nat → (k * bs ≤ len)%nat →
  S k = (len / bs + 1)%nat ↔ (len - k * bs < bs)%nat.
Proof.
  intros Hbs Hk.
  pose proof (Nat.div_mod_eq len bs).
  pose proof (Nat.mod_upper_bound len bs ltac:(lia)).
  split; intros ?; nia.
Qed.

Lemma reads_le_length (bs len : nat) : (0 < bs)%nat → (len / bs + 1 ≤ len + 1)%nat.
Proof.
  intros Hbs.
  pose proof (Nat.div_mod_eq len bs). nia.
Qed.

Lemma block_length bs (input : list byte) i :
  length (block bs input i) = (bs `min` (length input - i * bs))%nat.
Proof. unfold block. by rewrite length_take, length_drop. Qed.

(** Keys below [k] are at most [k] entries. *)
Lemma size_below (m : gmap Z Z) (k : nat) :
  (∀ i v, m !! i = Some v → ∃ j : nat, i = Z.of_nat j ∧ (j < k)%nat) →
  (size m ≤ k)%nat.
Proof.
  intros Hkeys.
  rewrite <- size_dom.
  assert (Hsub : dom m ⊆ (list_to_set (Z.of_nat <$> seq 0 k) : gset Z)).
  { intros i Hi.
    apply elem_of_dom in Hi as [v Hv].
    destruct (Hkeys i v Hv) as (j & -> & Hj).
    apply elem_of_list_to_set, list_elem_of_fmap.
    exists j. split; [done|]. apply elem_of_seq. lia. }
  apply subseteq_size in Hsub.
  rewrite size_list_to_set in Hsub
    by (apply NoDup_fmap_2; [apply _|apply NoDup_seq]).
  by rewrite length_fmap, length_seq in Hsub.
Qed.

(** ** Runs of the pipeline *)

Lemma run_app checksum block_size_value t1 t2 st :
  run checksum block_size_value (t1 ++ t2) st
    = run checksum block_size_value t1 st ≫= run checksum block_size_value t2.
Proof.
  revert st. induction t1 as [|e t1 IH]; intros st; simpl; [done|].
  destruct (exec checksum block_size_value e st); simpl; [apply IH|done].
Qed.

Section Run.

Variable checksum : list byte → Z.
Variable bs : nat.
Variable input : list byte.
Hypothesis Hbs : (0 < bs)%nat.
Hypothesis Hlen : Z.of_nat (length input) < 2 ^ 63.

Local Abbreviation Inv' := (Inv checksum bs input).
Local Abbreviation exec' := (exec checksum (Z.of_nat bs)).
Local Abbreviation run' := (run checksum (Z.of_nat bs)).

Lemma reads_uint64 (k : nat) : (k ≤ reads bs input)%nat → Z.of_nat k < 2 ^ 64 - 1.
Proof.
  unfold reads. intros Hk.
  pose proof (reads_le_length bs (length input) Hbs). lia.
Qed.

Lemma inv_init : Inv' 0 0 (init input).
Proof.
  constructor; simpl; try done; try lia.
  - unfold reads. symmetry. apply bool_decide_eq_false. lia.
  - intros t Ht. by apply elem_of_nil in Ht.
  - constructor.
  - intros [?|?]; done.
Qed.

(** *** The read *)

Lemma read_block_inv k c st :
  Inv' k c st → eofbit st = false →
  Inv' (S k) c (read_block (Z.of_nat bs) st)
  ∧ pc (read_block (Z.of_nat bs) st) = at_check.
Proof.
  intros [] Heof. split; [|done].
  rewrite inv_eof0 in Heof. apply bool_decide_eq_false in Heof.
  assert (Hk : (k < reads bs input)%nat) by lia.
  assert (Hkb : (k * bs ≤ length input)%nat) by (by apply lt_reads).
  assert (Hstored : take bs (input_file st) = block bs input k)
    by (by rewrite inv_input0).
  unfold read_block, istream_read. rewrite Nat2Z.id, Hstored.
  constructor; simpl.
  - rewrite inv_counter0, wrap64_small; [lia|].
    pose proof (reads_uint64 (S k) ltac:(lia)). unfold is_uint64, uint64_max. lia.
  - lia.
  - rewrite inv_input0, drop_drop. f_equal. lia.
  - rewrite inv_input0, length_drop. apply bool_decide_ext.
    unfold reads. rewrite (last_read bs (length input) k Hbs Hkb). done.
  - done.
  - lia.
  - done.
  - intros i v Hi. destruct (inv_map0 i v Hi) as (j & ? & ? & ?).
    exists j. repeat split; [done|lia|done].
  - intros t Ht. apply elem_of_app in Ht as [Ht|Ht].
    + destruct (inv_tasks0 t Ht) as (j & ? & ? & ?). exists j. split; [done|]. split; [lia|done].
    + apply list_elem_of_singleton in Ht as ->. simpl.
      exists k. rewrite inv_counter0.
      assert (Hl : (length (block bs input k) ≤ bs)%nat)
        by (rewrite block_length; lia).
      repeat split; [lia|..].
      * rewrite length_app, length_replicate. lia.
      * by rewrite take_app_length.
      * destruct (block_crc_map st !! Z.of_nat k) as [v|] eqn:E; [|done].
        destruct (inv_map0 _ _ E) as (j & ? & ? & _). lia.
  - rewrite fmap_app. simpl. apply NoDup_app. split; [done|]. split.
    + intros i Hi Hi'. apply list_elem_of_singleton in Hi' as ->.
      apply list_elem_of_fmap in Hi as (t & Hid & Ht).
      destruct (inv_tasks0 t Ht) as (j & ? & ? & _). lia.
    + apply NoDup_singleton.
  - intros j Hj. rewrite fmap_app. simpl.
    destruct (decide (j = k)) as [->|Hne].
    + right. apply elem_of_app. right. rewrite inv_counter0. by left.
    + destruct (inv_cover0 j ltac:(lia)) as [?|?]; [by left|].
      right. apply elem_of_app. by left.
  - done.
  - intros [?|?]; done.
  - done.
  - done.
Qed.

(** *** A task reaches its insert *)

Lemma pool_split (l : list task.t) j t :
  l !! j = Some t → ∃ l1 l2, l = l1 ++ t :: l2 ∧ delete j l = l1 ++ l2.
Proof.
  intros Hj. exists (take j l), (drop (S j) l). split.
  - symmetry. by apply take_drop_middle.
  - apply delete_take_drop.
Qed.

Lemma run_task_inv k c st j t :
  Inv' k c st → tp st !! j = Some t →
  let st' := run_task checksum t (with_tp (delete j (tp st)) st) in
  Inv' k c st'
  ∧ block_crc_map st !! task.block_counter t = None
  ∧ block_crc_map st' =
      <[task.block_counter t := crc_value checksum t]> (block_crc_map st)
  ∧ tp st' = delete j (tp st)
  ∧ std_err st' = std_err st
  ∧ pc st' = pc st.
Proof.
  intros [] Hj. simpl.
  destruct (pool_split _ _ _ Hj) as (l1 & l2 & Hl & Hdel).
  rewrite Hdel.
  assert (Ht : t ∈ tp st) by (by eapply list_elem_of_lookup_2).
  destruct (inv_tasks0 t Ht) as (j0 & Hid & Hj0 & Hbuf & Hsz & Htake & Hnone).
  rewrite Hl, fmap_app, fmap_cons in inv_nodup0.
  apply NoDup_app in inv_nodup0 as (Hnd1 & Hnd12 & Hnd2).
  apply NoDup_cons in Hnd2 as (Hnd2 & Hnd3).
  assert (Hother : ∀ t', t' ∈ l1 ++ l2 → task.block_counter t' ≠ task.block_counter t).
  { intros t' Ht' Heq. apply elem_of_app in Ht' as [Ht'|Ht'].
    - apply (Hnd12 (task.block_counter t')).
      + apply list_elem_of_fmap. eauto.
      + rewrite Heq. by left.
    - apply Hnd2. rewrite <- Heq. apply list_elem_of_fmap. eauto. }
  assert (Hcrc : crc_value checksum t = checksum (block bs input j0)).
  { unfold crc_value. by rewrite Hsz, Nat2Z.id, Htake. }
  unfold run_task, map_insert. simpl. rewrite Hid, Hnone. simpl.
  split; [|by rewrite <- Hid].
  constructor; simpl; try done.
  - intros i v Hi. apply lookup_insert_Some in Hi as [[<- <-]|[_ Hi]]; [|eauto].
    exists j0. by rewrite Hcrc.
  - intros t' Ht'.
    assert (Hin : t' ∈ tp st).
    { rewrite Hl. apply elem_of_app in Ht' as [?|?]; apply elem_of_app; [by left|].
      right. by right. }
    destruct (inv_tasks0 t' Hin) as (j' & Hid' & ? & ? & ? & ? & ?).
    exists j'. repeat split; try done.
    rewrite lookup_insert_ne; [done|].
    intros Heq. apply (Hother t' Ht'). by rewrite Hid, Hid', Heq.
  - rewrite fmap_app. apply NoDup_app. split; [done|]. split; [|done].
    intros i Hi Hi'. apply (Hnd12 i Hi). by right.
  - intros j1 Hj1. destruct (decide (j1 = j0)) as [->|Hne].
    + left. rewrite lookup_insert_eq. eauto.
    + destruct (inv_cover0 j1 Hj1) as [Hs|Hs].
      * left. rewrite lookup_insert_ne by lia. done.
      * right. rewrite Hl, fmap_app, fmap_cons in Hs. rewrite fmap_app.
        apply elem_of_app in Hs as [?|Hs]; apply elem_of_app; [by left|].
        apply elem_of_cons in Hs as [Hs|?]; [|by right]. lia.
Qed.

(** *** [crc_saver] between two steps *)

Lemma crc_saver_inv k c st :
  Inv' k c st →
  ∃ n : nat,
    crc_saver st = Some (after_saving n st)
    ∧ Inv' k (c + n) (after_saving n st)
    ∧ block_crc_map st !! Z.of_nat (c + n) = None.
Proof.
  intros [].
  pose proof (reads_uint64 k inv_reads0) as Hk.
  assert (Hu : is_uint64 (last_processed_block_id st)).
  { rewrite inv_cursor0. unfold is_uint64, uint64_max. lia. }
  assert (Hsize : (size (block_crc_map st) ≤ k)%nat).
  { apply size_below. intros i v Hi.
    destruct (inv_map0 i v Hi) as (j & ? & ? & _). eauto. }
  destruct (crc_saver_returns st Hu ltac:(lia)) as (n & Hn & Hall & Hgap & Hres).
  rewrite inv_cursor0 in Hall, Hgap.
  assert (Hsmall : ∀ i : nat, (c + i ≤ k)%nat →
    wrap64 (Z.of_nat c + Z.of_nat i) = Z.of_nat (c + i)).
  { intros i Hi. rewrite wrap64_small; [lia|]. unfold is_uint64, uint64_max. lia. }
  assert (Hle : ∀ i : nat, (i ≤ n)%nat → (c + i ≤ k)%nat).
  { induction i as [|i IHi]; intros Hi; [lia|].
    destruct (Hall i ltac:(lia)) as [v Hv].
    rewrite Hsmall in Hv by lia.
    destruct (inv_map0 _ _ Hv) as (j & Hj & ? & _). lia. }
  assert (Hw : ∀ i : nat, (i ≤ n)%nat →
    wrap64 (Z.of_nat c + Z.of_nat i) = Z.of_nat (c + i)).
  { intros i Hi. apply Hsmall, Hle, Hi. }
  assert (Hrun : ∀ i : nat, (i < n)%nat →
    (c + i < k)%nat
    ∧ block_crc_map st !! Z.of_nat (c + i) = Some (checksum (block bs input (c + i)))).
  { intros i Hi. destruct (Hall i Hi) as [v Hv].
    rewrite Hw in Hv by lia.
    destruct (inv_map0 _ _ Hv) as (j & Hj & ? & ->).
    apply Nat2Z.inj in Hj as <-. done. }
  assert (Hcn : (c + n ≤ k)%nat).
  { destruct n as [|n]; [lia|]. destruct (Hrun n ltac:(lia)). lia. }
  exists n. split; [done|]. split; [|by rewrite <- Hw].
  constructor; simpl; try done.
  - rewrite inv_cursor0. by apply Hw.
  - rewrite inv_output0, seq_app, fmap_app. f_equal.
    unfold run_values. rewrite inv_cursor0.
    replace (seq (0 + c) n) with (Nat.add c <$> seq 0 n)
      by (rewrite fmap_add_seq; f_equal; lia).
    rewrite <- list_fmap_compose.
    apply list_fmap_ext. intros p i Hp. simpl.
    apply lookup_seq in Hp as [-> Hp]. simpl.
    rewrite Hw by lia. destruct (Hrun p Hp) as [_ ->]. done.
  - intros Hpc. specialize (inv_pc_done0 Hpc). lia.
Qed.

Lemma with_pc_inv k c st l :
  Inv' k c st →
  (l = at_drain ∨ l = at_done → k = reads bs input) →
  (l = at_done → c = k) → l ≠ at_exit_failure →
  Inv' k c (with_pc l st).
Proof. intros [] ???. constructor; simpl; done. Qed.

Lemma sleep_for_inv k c st ms : Inv' k c st → Inv' k c (sleep_for ms st).
Proof. intros []. constructor; simpl; done. Qed.

(** *** Every step keeps the invariant *)

Lemma exec_inv k c st e st' :
  Inv' k c st → no_throw e → exec' e st = Some st' →
  ∃ k' c', Inv' k' c' st' ∧ (k ≤ k')%nat ∧ (c ≤ c')%nat.
Proof.
  intros HI He Hexec. unfold exec, exec_with in Hexec.
  destruct e as [r|j].
  - destruct (pc st) eqn:Hpc; try done.
    + destruct (eofbit st) eqn:Heof.
      * injection Hexec as <-. exists k, c. split; [|lia].
        apply with_pc_inv; try done. intros _.
        destruct HI. rewrite inv_eof0 in Heof. by apply bool_decide_eq_true in Heof.
      * destruct r as [|e]; [|done]. injection Hexec as <-.
        exists (S k), c. split; [|lia]. by apply read_block_inv.
    + case_decide.
      * destruct (crc_saver_inv k c st HI) as (n & Hres & HI' & _).
        rewrite Hres in Hexec. injection Hexec as <-.
        exists k, (c + n)%nat. split; [|lia].
        apply with_pc_inv; [done|by intros [?|?]|done|done].
      * injection Hexec as <-. exists k, c. split; [|lia].
        apply with_pc_inv; [done|by intros [?|?]|done|done].
    + assert (Hk : k = reads bs input) by (destruct HI; auto).
      case_decide as Hne.
      * destruct (crc_saver_inv k c (sleep_for 10 st) (sleep_for_inv _ _ _ _ HI))
          as (n & Hres & HI' & _).
        rewrite Hres in Hexec. injection Hexec as <-.
        exists k, (c + n)%nat. split; [done|lia].
      * injection Hexec as <-. exists k, c. split; [|lia].
        apply with_pc_inv; try done. intros _.
        destruct HI.
        rewrite inv_counter0, inv_cursor0 in Hne. lia.
  - destruct (tp st !! j) as [t|] eqn:Hj; [|done]. injection Hexec as <-.
    exists k, c. split; [|lia]. by apply run_task_inv.
Qed.

Lemma run_inv trace : ∀ k c st st',
  Inv' k c st → Forall no_throw trace → run' trace st = Some st' →
  ∃ k' c', Inv' k' c' st' ∧ (k ≤ k')%nat ∧ (c ≤ c')%nat.
Proof.
  induction trace as [|e trace IH]; intros k c st st' HI Hnt Hrun.
  - injection Hrun as <-. exists k, c. split; [done|lia].
  - simpl in Hrun. apply Forall_cons in Hnt as [He Hnt].
    destruct (exec' e st) as [st1|] eqn:He1; [|done].
    destruct (exec_inv _ _ _ _ _ HI He He1) as (k1 & c1 & HI1 & ? & ?).
    destruct (IH _ _ _ _ HI1 Hnt Hrun) as (k2 & c2 & HI2 & ? & ?).
    exists k2, c2. split; [done|lia].
Qed.

Lemma reachable_inv trace st :
  Forall no_throw trace → run' trace (init input) = Some st →
  ∃ k c, Inv' k c st.
Proof.
  intros Hnt Hrun.
  destruct (run_inv trace 0 0 _ _ inv_init Hnt Hrun) as (k & c & HI & _).
  eauto.
Qed.

(** Once [main] is past its drain loop the records are the checksums of all
    blocks read, in order. *)
Lemma done_output trace st :
  Forall no_throw trace → run' trace (init input) = Some st → pc st = at_done →
  output_file_stream st = checksum <$> blocks bs input.
Proof.
  intros Hnt Hrun Hpc.
  destruct (reachable_inv trace st Hnt Hrun) as (k & c & []).
  rewrite inv_output0, (inv_pc_done0 Hpc), (inv_pc_drain0 (or_intror Hpc)).
  unfold blocks. by rewrite <- list_fmap_compose.
Qed.

(** *** Every run can be brought to its end *)

Local Arguments exec : simpl never.

(** The pool finishes the tasks it holds. *)
Lemma pool_drains n : ∀ k c st,
  Inv' k c st → length (tp st) = n →
  ∃ trace st', Forall no_throw trace ∧ run' trace st = Some st'
    ∧ Inv' k c st' ∧ tp st' = [] ∧ pc st' = pc st.
Proof.
  induction n as [|n IH]; intros k c st HI Hlen'.
  - exists [], st. split; [done|]. split; [done|]. split; [done|].
    split; [by apply nil_length_inv|done].
  - destruct (tp st) as [|t q] eqn:Hq; [done|].
    assert (Hj : tp st !! 0%nat = Some t) by (by rewrite Hq).
    destruct (run_task_inv k c st 0 t HI Hj) as (HI1 & _ & _ & Htp & _ & Hpc).
    set (st1 := run_task checksum t (with_tp (delete 0%nat (tp st)) st)) in *.
    assert (Hlen1 : length (tp st1) = n).
    { rewrite Htp, Hq. simpl in *. lia. }
    destruct (IH k c st1 HI1 Hlen1) as (trace & st' & Hnt & Hrun & HI' & Htp' & Hpc').
    exists (worker_thread 0 :: trace), st'.
    split; [by constructor|]. split; [|split; [done|split; [done|congruence]]].
    simpl. unfold exec, exec_with. rewrite Hj. done.
Qed.

(** With the pool empty, the drain loop ends after one more [crc_saver] at
    most. *)
Lemma drain_ends k c st :
  Inv' k c st → tp st = [] → pc st = at_drain →
  ∃ trace st', Forall no_throw trace ∧ run' trace st = Some st' ∧ pc st' = at_done.
Proof.
  intros HI Htp Hpc.
  destruct (decide (last_processed_block_id st ≠ block_counter st)) as [Hne|Heq].
  - destruct (crc_saver_inv k c (sleep_for 10 st) (sleep_for_inv _ _ _ _ HI))
      as (n & Hres & HI1 & Hgap).
    set (st1 := after_saving n (sleep_for 10 st)) in *.
    assert (Hcn : (c + n = k)%nat).
    { destruct HI1, HI.
      destruct (decide (c + n < k)%nat) as [Hlt|]; [|lia].
      destruct (inv_cover1 _ Hlt) as [[v Hv]|Hin].
      - simpl in Hgap. congruence.
      - rewrite Htp in Hin. by apply elem_of_nil in Hin. }
    exists [main_thread try_ok; main_thread try_ok], (with_pc at_done st1).
    split; [by repeat constructor|]. split; [|done].
    simpl. unfold exec, exec_with. rewrite Hpc, decide_True by done.
    rewrite Hres. fold st1.
    assert (Hpc1 : pc st1 = at_drain) by done. rewrite Hpc1.
    destruct HI1. rewrite decide_False; [done|].
    rewrite inv_cursor0, inv_counter0. intros Hne'. apply Hne'. lia.
  - exists [main_thread try_ok], (with_pc at_done st).
    split; [by repeat constructor|]. split; [|done].
    simpl. unfold exec, exec_with. by rewrite Hpc, decide_False.
Qed.

(** From the loop head with the pool empty, letting each task finish before
    the size check brings the main thread to the drain loop. *)
Lemma loop_ends r : ∀ k c st,
  Inv' k c st → tp st = [] → pc st = at_loop_head → (reads bs input - k = r)%nat →
  ∃ trace st' c', Forall no_throw trace ∧ run' trace st = Some st'
    ∧ Inv' (reads bs input) c' st' ∧ tp st' = [] ∧ pc st' = at_drain.
Proof.
  induction r as [|r IH]; intros k c st HI Htp Hpc Hr.
  - assert (Hk : k = reads bs input) by (destruct HI; lia). subst k.
    exists [main_thread try_ok], (with_pc at_drain st), c.
    assert (Heof : eofbit st = true).
    { destruct HI. rewrite inv_eof0. by apply bool_decide_eq_true. }
    split; [by repeat constructor|]. split; [|split; [|done]].
    + simpl. unfold exec, exec_with. by rewrite Hpc, Heof.
    + by apply with_pc_inv.
  - assert (Heof : eofbit st = false).
    { destruct HI. rewrite inv_eof0. apply bool_decide_eq_false. lia. }
    destruct (read_block_inv k c st HI Heof) as (HI1 & Hpc1).
    set (st1 := read_block (Z.of_nat bs) st) in *.
    assert (Htp1 : tp st1 = [task.mk
        (take (Z.to_nat (Z.of_nat bs)) (input_file st)
           ++ replicate (Z.to_nat (Z.of_nat bs)
                - length (take (Z.to_nat (Z.of_nat bs)) (input_file st))) "000"%byte)
        (Z.of_nat (length (take (Z.to_nat (Z.of_nat bs)) (input_file st))))
        (block_counter st)]).
    { unfold st1, read_block, istream_read. simpl. by rewrite Htp. }
    set (t := task.mk _ _ _) in Htp1.
    assert (Hj : tp st1 !! 0%nat = Some t) by (by rewrite Htp1).
    destruct (run_task_inv (S k) c st1 0 t HI1 Hj) as (HI2 & _ & _ & Htp2 & _ & Hpc2).
    set (st2 := run_task checksum t (with_tp (delete 0%nat (tp st1)) st1)) in *.
    rewrite Htp1 in Htp2. simpl in Htp2. rewrite Hpc1 in Hpc2.
    assert (∃ st3 c3, exec' (main_thread try_ok) st2 = Some st3
      ∧ Inv' (S k) c3 st3 ∧ tp st3 = [] ∧ pc st3 = at_loop_head)
      as (st3 & c3 & Hex3 & HI3 & Htp3 & Hpc3).
    { unfold exec, exec_with. rewrite Hpc2. case_decide.
      - destruct (crc_saver_inv (S k) c st2 HI2) as (n & Hres & HI3 & _).
        rewrite Hres. simpl. eexists _, _. split; [done|]. split; [|done].
        apply with_pc_inv; [done|by intros [?|?]|done|done].
      - eexists _, _. split; [done|]. split; [|done].
        apply with_pc_inv; [done|by intros [?|?]|done|done]. }
    destruct (IH (S k) c3 st3 HI3 Htp3 Hpc3 ltac:(lia))
      as (trace & st' & c' & Hnt & Hrun & HI' & Htp' & Hpc').
    exists ([main_thread try_ok; worker_thread 0; main_thread try_ok] ++ trace), st', c'.
    split; [apply Forall_app; split; [by repeat constructor|done]|].
    split; [|done].
    + rewrite run_app. simpl.
      assert (Hex1 : exec' (main_thread try_ok) st = Some st1).
      { unfold exec, exec_with. by rewrite Hpc, Heof. }
      assert (Hex2 : exec' (worker_thread 0) st1 = Some st2).
      { unfold exec, exec_with. by rewrite Hj. }
      rewrite Hex1. simpl. rewrite Hex2. simpl. rewrite Hex3. done.
Qed.

Lemma can_finish k c st :
  Inv' k c st →
  ∃ trace st', Forall no_throw trace ∧ run' trace st = Some st' ∧ pc st' = at_done.
Proof.
  intros HI.
  destruct (pool_drains _ k c st HI eq_refl)
    as (t1 & st1 & Hnt1 & Hrun1 & HI1 & Htp1 & Hpc1).
  assert (∃ t2 st2, Forall no_throw t2 ∧ run' t2 st1 = Some st2 ∧ pc st2 = at_done)
    as (t2 & st2 & Hnt2 & Hrun2 & Hpc2).
  { destruct (pc st1) eqn:Hpc.
    - destruct (loop_ends _ k c st1 HI1 Htp1 Hpc eq_refl)
        as (ta & sta & ca & Hnta & Hruna & HIa & Htpa & Hpca).
      destruct (drain_ends _ ca sta HIa Htpa Hpca) as (tb & stb & Hntb & Hrunb & Hpcb).
      exists (ta ++ tb), stb. split; [by apply Forall_app|].
      split; [|done]. by rewrite run_app, Hruna.
    - assert (∃ st3 c3, exec' (main_thread try_ok) st1 = Some st3
        ∧ Inv' k c3 st3 ∧ tp st3 = [] ∧ pc st3 = at_loop_head)
        as (st3 & c3 & Hex3 & HI3 & Htp3 & Hpc3).
      { unfold exec, exec_with. rewrite Hpc. case_decide.
        - destruct (crc_saver_inv k c st1 HI1) as (n & Hres & HI3 & _).
          rewrite Hres. simpl. eexists _, _. split; [done|]. split; [|done].
          apply with_pc_inv; [done|by intros [?|?]|done|done].
        - eexists _, _. split; [done|]. split; [|done].
          apply with_pc_inv; [done|by intros [?|?]|done|done]. }
      destruct (loop_ends _ k c3 st3 HI3 Htp3 Hpc3 eq_refl)
        as (ta & sta & ca & Hnta & Hruna & HIa & Htpa & Hpca).
      destruct (drain_ends _ ca sta HIa Htpa Hpca) as (tb & stb & Hntb & Hrunb & Hpcb).
      exists (main_thread try_ok :: ta ++ tb), stb.
      split; [constructor; [done|by apply Forall_app]|].
      split; [|done]. simpl. by rewrite Hex3, run_app, Hruna.
    - apply (drain_ends k c st1 HI1 Htp1 Hpc).
    - exists [], st1. done.
    - destruct HI1. done. }
  exists (t1 ++ t2), st2. split; [by apply Forall_app|].
  split; [|done]. by rewrite run_app, Hrun1.
Qed.

End Run.

(** ** The order and the number of the records *)

Example sample_blocks :
  blocks 8 sample = list_byte_of_string <$> ["signatur"; "e of a f"; "ile"].
Proof. reflexivity. Qed.

Example sample_last_one_first :
  (λ st, (pc st, output_file_stream st, slept_ms st))
    <$> run crc_32 8 last_one_first (init sample)
  = Some (at_done, crc_32 <$> blocks 8 sample, 20).
Proof. vm_compute. reflexivity. Qed.

Lemma sample_length : Z.of_nat (length sample) < 2 ^ 63.
Proof. vm_compute. reflexivity. Qed.

Lemma last_one_first_no_throw : Forall no_throw last_one_first.
Proof. repeat constructor. Qed.

Lemma last_one_first_runs :
  ∃ st, run crc_32 8 last_one_first (init sample) = Some st ∧ pc st = at_done.
Proof. vm_compute. eexists. split; reflexivity. Qed.

Lemma length_file_contents o st :
  length (file_contents o st) = (4 * length (output_file_stream st))%nat.
Proof.
  unfold file_contents. induction (output_file_stream st) as [|crc l IH]; [done|].
  rewrite bind_cons, length_app, IH. destruct o; simpl; lia.
Qed.

Example record_bytes_of_crc :
  record_bytes little_endian (crc_32 (list_byte_of_string "123456789"))
    = [x26; x39; xf4; xcb].
Proof. vm_compute. reflexivity. Qed.

Lemma reads_ceil_div (bs len : nat) :
  (0 < bs)%nat →
  (len / bs + 1)%nat =
    if decide (len `mod` bs = 0)%nat then S (ceil_div len bs) else ceil_div len bs.
Proof.
  intros Hbs. unfold ceil_div.
  pose proof (Nat.div_mod_eq len bs) as Hdm.
  pose proof (Nat.mod_upper_bound len bs ltac:(lia)) as Hm.
  case_decide as Hz.
  - rewrite Hz, Nat.add_0_r in Hdm.
    assert ((len + bs - 1) / bs = len / bs)%nat as ->; [|lia].
    symmetry. apply (Nat.div_unique _ _ _ (bs - 1)); lia.
  - apply (Nat.div_unique _ _ _ (len `mod` bs - 1)); lia.
Qed.

(** ** The output against the blocks of the input *)

Lemma ceil_div_covers (bs len : nat) :
  (0 < bs)%nat →
  (len ≤ ceil_div len bs * bs)%nat
  ∧ ∀ i, (i < ceil_div len bs)%nat → (i * bs < len)%nat.
Proof.
  intros Hbs. unfold ceil_div.
  pose proof (Nat.div_mod_eq (len + bs - 1) bs) as Hdm.
  pose proof (Nat.mod_upper_bound (len + bs - 1) bs ltac:(lia)) as Hm.
  split; [nia|]. intros i Hi. nia.
Qed.

(** The blocks put end to end are the input, and no block is empty or
    longer than the block size. *)
Lemma input_blocks_join bs input :
  (0 < bs)%nat → mjoin (input_blocks bs input) = input.
Proof.
  intros Hbs.
  assert (Hn : ∀ n, mjoin (block bs input <$> seq 0 n) = take (n * bs) input).
  { induction n as [|n IH]; [done|].
    rewrite seq_S, fmap_app, join_app, IH. simpl. rewrite app_nil_r.
    unfold block. rewrite take_take_drop. f_equal. lia. }
  unfold input_blocks. rewrite Hn. apply take_ge.
  apply (ceil_div_covers bs (length input) Hbs).
Qed.

Lemma input_blocks_lengths bs input b :
  (0 < bs)%nat → b ∈ input_blocks bs input → (0 < length b ≤ bs)%nat.
Proof.
  intros Hbs Hb. unfold input_blocks in Hb.
  apply list_elem_of_fmap in Hb as (i & -> & Hi).
  apply elem_of_seq in Hi.
  destruct (ceil_div_covers bs (length input) Hbs) as [_ Hlt].
  specialize (Hlt i ltac:(lia)). rewrite block_length. lia.
Qed.

(** The loop reads the blocks of the input, and then once more when the
    input ends where a block ends. *)
Lemma blocks_input_blocks bs input :
  (0 < bs)%nat →
  blocks bs input = input_blocks bs input ++ read_past_the_end bs input.
Proof.
  intros Hbs. unfold blocks, reads, input_blocks, read_past_the_end.
  rewrite (reads_ceil_div bs (length input) Hbs).
  case_decide as Hz; [|by rewrite app_nil_r].
  rewrite seq_S, fmap_app. simpl. f_equal. f_equal.
  unfold block. rewrite drop_ge; [by rewrite take_nil|].
  apply (ceil_div_covers bs (length input) Hbs).
Qed.

(** C2. Whatever the order in which the tasks finish, once [main] is past
    its drain loop the output holds the checksum of block 0, of block 1, and
    so on up to the last block of the input, each once and in that order;
    before that it holds the first few of them; every run can be continued
    to that point; and any two completed runs on one input and block size
    leave the same records, hence the same bytes however a record is laid
    out. That is all the output holds when the size of the input is not a
    multiple of the block size. When it is, and for the empty input, one
    more record follows the checksum of the last block: the checksum of no
    bytes. *)
Theorem output_against_the_blocks checksum bs input :
  (0 < bs)%nat → Z.of_nat (length input) < 2 ^ 63 →
  (∀ trace st, Forall no_throw trace →
     run checksum (Z.of_nat bs) trace (init input) = Some st →
     (∃ c, output_file_stream st
             = checksum <$> take c (input_blocks bs input ++ read_past_the_end bs input))
     ∧ (pc st = at_done →
          output_file_stream st
            = (checksum <$> input_blocks bs input)
                ++ (checksum <$> read_past_the_end bs input)
          ∧ ((length input `mod` bs ≠ 0)%nat →
               output_file_stream st = checksum <$> input_blocks bs input)
          ∧ ((length input `mod` bs = 0)%nat →
               output_file_stream st
                 = (checksum <$> input_blocks bs input) ++ [checksum []]
               ∧ length (output_file_stream st)
                 = S (length (input_blocks bs input))))
     ∧ ∃ more st', Forall no_throw more
         ∧ run checksum (Z.of_nat bs) (trace ++ more) (init input) = Some st'
         ∧ pc st' = at_done)
  ∧ (∀ trace1 trace2 st1 st2,
       Forall no_throw trace1 → Forall no_throw trace2 →
       run checksum (Z.of_nat bs) trace1 (init input) = Some st1 →
       run checksum (Z.of_nat bs) trace2 (init input) = Some st2 →
       pc st1 = at_done → pc st2 = at_done →
       output_file_stream st1 = output_file_stream st2
       ∧ ∀ layout : Z → list byte,
           output_file_stream st1 ≫= layout = output_file_stream st2 ≫= layout).
Proof.
  intros Hbs Hlen. split.
  - intros trace st Hnt Hrun.
    destruct (reachable_inv checksum bs input Hbs Hlen trace st Hnt Hrun)
      as (k & c & HI).
    split; [|split].
    + exists c. destruct HI. rewrite inv_output0.
      rewrite <- (blocks_input_blocks bs input Hbs). unfold blocks.
      rewrite <- fmap_take, take_seq, <- list_fmap_compose.
      by replace (c `min` reads bs input)%nat with c by lia.
    + intros Hpc.
      pose proof (done_output checksum bs input Hbs Hlen trace st Hnt Hrun Hpc)
        as Hout.
      rewrite (blocks_input_blocks bs input Hbs), fmap_app in Hout.
      split; [done|]. unfold read_past_the_end in Hout. split.
      * intros Hz. rewrite decide_False in Hout by done.
        by rewrite app_nil_r in Hout.
      * intros Hz. rewrite decide_True in Hout by done. split; [done|].
        rewrite Hout, length_app, length_fmap. simpl. lia.
    + destruct (can_finish checksum bs input Hbs Hlen k c st HI)
        as (more & st' & Hnt' & Hrun' & Hpc').
      exists more, st'. split; [done|]. split; [|done].
      by rewrite run_app, Hrun.
  - intros trace1 trace2 st1 st2 Hnt1 Hnt2 Hrun1 Hrun2 Hpc1 Hpc2.
    assert (Heq : output_file_stream st1 = output_file_stream st2).
    { rewrite (done_output checksum bs input Hbs Hlen trace1 st1) by done.
      by rewrite (done_output checksum bs input Hbs Hlen trace2 st2). }
    split; [done|]. intros layout. by rewrite Heq.
Qed.

Lemma output_against_the_blocks_witness :
  (0 < 1024)%nat ∧ Z.of_nat (length (@nil byte)) < 2 ^ 63
  ∧ Forall no_throw (in_turn 1)
  ∧ input_blocks 1024 [] = []
  ∧ ∃ st, run crc_32 (Z.of_nat 1024) (in_turn 1) (init []) = Some st
      ∧ pc st = at_done
      ∧ output_file_stream st = (crc_32 <$> input_blocks 1024 []) ++ [crc_32 []]
      ∧ length (output_file_stream st) = 1%nat.
Proof.
  assert (Hnt : Forall no_throw (in_turn 1)) by (repeat constructor).
  assert (Hlen : Z.of_nat (length (@nil byte)) < 2 ^ 63) by (simpl; lia).
  split; [lia|]. split; [exact Hlen|]. split; [exact Hnt|].
  split; [reflexivity|].
  assert (Hrun : ∃ st, run crc_32 (Z.of_nat 1024) (in_turn 1) (init []) = Some st
                       ∧ pc st = at_done)
    by (vm_compute; eexists; split; reflexivity).
  destruct Hrun as (st & Hrun & Hpc).
  exists st. split; [exact Hrun|]. split; [exact Hpc|].
  destruct (output_against_the_blocks crc_32 1024 [] ltac:(lia) Hlen) as [Hall _].
  destruct (Hall (in_turn 1) st Hnt Hrun) as (_ & Hdone & _).
  destruct (Hdone Hpc) as (_ & _ & Hzero).
  exact (Hzero eq_refl).
Defined.

(** Two full blocks: three records, the third the checksum of no bytes. *)
Example two_full_blocks_output :
  output_file_stream
    <$> run byte_count 1024 (in_turn 3) (init (replicate 2048 "a"%byte))
  = Some [1024; 1024; 0]
  ∧ length (input_blocks 1024 (replicate 2048 "a"%byte)) = 2%nat.
Proof. split; vm_compute; reflexivity. Qed.

(** C3. A completed run leaves one record of four bytes for every read, and
    the loop makes one read more than there are full blocks:
    [input_size / block_size + 1] records. That is the promised [ceil (input_size / block_size)] only when
    the size is not a multiple of the block size; when it is, and for the
    empty input, a last read of no bytes adds a record, so that the empty
    input leaves the one record [checksum []]. *)
Theorem one_record_per_read checksum bs input trace st :
  (0 < bs)%nat → Z.of_nat (length input) < 2 ^ 63 →
  Forall no_throw trace →
  run checksum (Z.of_nat bs) trace (init input) = Some st → pc st = at_done →
  length (output_file_stream st) = (length input / bs + 1)%nat
  ∧ (∀ o, length (file_contents o st) = (4 * (length input / bs + 1))%nat)
  ∧ (length input `mod` bs ≠ 0 →
       length (output_file_stream st) = ceil_div (length input) bs)%nat
  ∧ (length input `mod` bs = 0 →
       length (output_file_stream st) = S (ceil_div (length input) bs))%nat
  ∧ (input = [] → ceil_div (length input) bs = 0%nat
                  ∧ output_file_stream st = [checksum []]).
Proof.
  intros Hbs Hlen Hnt Hrun Hpc.
  pose proof (done_output checksum bs input Hbs Hlen trace st Hnt Hrun Hpc) as Hout.
  assert (Hn : length (output_file_stream st) = (length input / bs + 1)%nat).
  { rewrite Hout. unfold blocks. by rewrite !length_fmap, length_seq. }
  pose proof (reads_ceil_div bs (length input) Hbs) as Hc.
  split; [done|]. split; [|split; [|split]].
  - intros o. by rewrite length_file_contents, Hn.
  - intros Hm. rewrite decide_False in Hc by done. lia.
  - intros Hm. rewrite decide_True in Hc by done. lia.
  - intros ->. split.
    + unfold ceil_div. simpl. apply Nat.div_small. lia.
    + rewrite Hout. unfold blocks, reads. simpl.
      rewrite Nat.Div0.div_0_l. simpl. unfold block.
      by rewrite drop_nil, take_nil.
Qed.

Lemma one_record_per_read_witness :
  (0 < 1024)%nat ∧ Z.of_nat (length (@nil byte)) < 2 ^ 63
  ∧ ∃ trace st, Forall no_throw trace
      ∧ run crc_32 (Z.of_nat 1024) trace (init []) = Some st
      ∧ pc st = at_done
      ∧ length (output_file_stream st) = 1%nat
      ∧ ceil_div (length (@nil byte)) 1024 = 0%nat.
Proof.
  assert (Hl : Z.of_nat (length (@nil byte)) < 2 ^ 63) by (simpl; lia).
  split; [lia|]. split; [exact Hl|].
  exists (in_turn 1).
  assert (Hnt : Forall no_throw (in_turn 1)) by (repeat constructor).
  assert (Hrun : ∃ st, run crc_32 (Z.of_nat 1024) (in_turn 1) (init []) = Some st
                       ∧ pc st = at_done)
    by (vm_compute; eexists; split; reflexivity).
  destruct Hrun as (st & Hrun & Hpc).
  exists st. split; [exact Hnt|]. split; [exact Hrun|]. split; [exact Hpc|].
  destruct (one_record_per_read crc_32 1024 [] (in_turn 1) st ltac:(lia) Hl Hnt Hrun Hpc)
    as (Hn & _ & _ & _ & He).
  split; [exact Hn|]. exact (proj1 (He eq_refl)).
Defined.

Example empty_input_record :
  (λ st, (pc st, output_file_stream st))
    <$> run crc_32 1024 (in_turn 1) (init []) = Some (at_done, [0]).
Proof. vm_compute. reflexivity. Qed.

Example two_full_blocks_three_records :
  (λ st, (pc st, output_file_stream st))
    <$> run byte_count 1024 (in_turn 3) (init (replicate 2048 "a"%byte))
  = Some (at_done, [1024; 1024; 0]).
Proof. vm_compute. reflexivity. Qed.

(** ** What a task checksums *)

(** C4. Every task the loop hands to the pool holds a buffer of the full
    block size and the count of bytes its read stored, and checksums exactly
    that many bytes: the bytes of its block, which for the last block are
    what was left of the input. Every record in the map is such a
    checksum. *)
Theorem task_checksums_what_was_read checksum bs input trace st :
  (0 < bs)%nat → Z.of_nat (length input) < 2 ^ 63 →
  Forall no_throw trace →
  run checksum (Z.of_nat bs) trace (init input) = Some st →
  (∀ t, t ∈ tp st →
     ∃ i : nat, task.block_counter t = Z.of_nat i
       ∧ length (task.buffer_ptr t) = bs
       ∧ task.readed_size t = Z.of_nat (length (block bs input i))
       ∧ length (block bs input i) = (bs `min` (length input - i * bs))%nat
       ∧ crc_value checksum t = checksum (block bs input i))
  ∧ (∀ (i : nat) v, block_crc_map st !! Z.of_nat i = Some v →
       v = checksum (block bs input i)).
Proof.
  intros Hbs Hlen Hnt Hrun.
  destruct (reachable_inv checksum bs input Hbs Hlen trace st Hnt Hrun)
    as (k & c & []).
  split.
  - intros t Ht.
    destruct (inv_tasks0 t Ht) as (j & Hid & _ & Hbuf & Hsz & Htake & _).
    exists j. split; [done|]. split; [done|]. split; [done|].
    split; [apply block_length|].
    unfold crc_value. by rewrite Hsz, Nat2Z.id, Htake.
  - intros i v Hv. destruct (inv_map0 _ _ Hv) as (j & Hj & _ & ->).
    by apply Nat2Z.inj in Hj as <-.
Qed.

Lemma task_checksums_what_was_read_witness :
  (0 < 1024)%nat ∧ Z.of_nat (length (replicate 2500 "a"%byte)) < 2 ^ 63
  ∧ Forall no_throw three_reads
  ∧ ∃ st, run byte_count (Z.of_nat 1024) three_reads (init (replicate 2500 "a"%byte)) = Some st
      ∧ length (tp st) = 3%nat
      ∧ ∀ t, t ∈ tp st →
          ∃ i : nat, task.block_counter t = Z.of_nat i
            ∧ length (task.buffer_ptr t) = 1024%nat
            ∧ crc_value byte_count t
              = byte_count (block 1024 (replicate 2500 "a"%byte) i).
Proof.
  assert (Hl : Z.of_nat (length (replicate 2500 "a"%byte)) < 2 ^ 63)
    by (rewrite length_replicate; lia).
  assert (Hnt : Forall no_throw three_reads) by (repeat constructor).
  split; [lia|]. split; [exact Hl|]. split; [exact Hnt|].
  assert (Hrun : ∃ st,
      run byte_count (Z.of_nat 1024) three_reads (init (replicate 2500 "a"%byte)) = Some st
      ∧ length (tp st) = 3%nat)
    by (vm_compute; eexists; split; reflexivity).
  destruct Hrun as (st & Hrun & Hlen).
  exists st. split; [exact Hrun|]. split; [exact Hlen|].
  intros t Ht.
  destruct (task_checksums_what_was_read byte_count 1024 (replicate 2500 "a"%byte)
              three_reads st ltac:(lia) Hl Hnt Hrun) as [Htasks _].
  destruct (Htasks t Ht) as (i & Hid & Hbuf & _ & _ & Hcrc).
  exists i. split; [exact Hid|]. split; [exact Hbuf|exact Hcrc].
Defined.

(** An input of 2500 bytes read in blocks of 1024: the three tasks checksum
    1024, 1024 and 452 bytes, each from a buffer of 1024. *)
Example short_last_block :
  (λ st, (λ t, (length (task.buffer_ptr t), task.readed_size t, crc_value byte_count t))
           <$> tp st)
    <$> run byte_count 1024 three_reads (init (replicate 2500 "a"%byte))
  = Some [(1024%nat, 1024, 1024); (1024%nat, 1024, 1024); (1024%nat, 452, 452)].
Proof. vm_compute. reflexivity. Qed.

Example short_last_block_output :
  output_file_stream
    <$> run byte_count 1024 (in_turn 3) (init (replicate 2500 "a"%byte))
  = Some [1024; 1024; 452].
Proof. vm_compute. reflexivity. Qed.

(** ** The insert of a task *)

Example second_insert_of_block_7 :
  let st := run_task crc_32 (task.mk [] 0 7) (store {[7 := 1234]} 0) in
  std_err st = ["block 7 insert error"] ∧ block_crc_map st = {[7 := 1234]}.
Proof. split; reflexivity. Qed.

(** The other version of the lambda drops a second insert without a word. *)
Example second_insert_dropped :
  let st := run_task_retry crc_32 (task.mk [] 0 7) (store {[7 := 1234]} 0) in
  std_err st = [] ∧ block_crc_map st = {[7 := 1234]}.
Proof. split; reflexivity. Qed.

(** ** The size check *)

Lemma crc_saver_loop_keeps fuel : ∀ st st',
  crc_saver_loop fuel st = Some st' →
  input_file st' = input_file st ∧ block_counter st' = block_counter st
  ∧ block_crc_map st' = block_crc_map st ∧ tp st' = tp st ∧ pc st' = pc st.
Proof.
  induction fuel as [|fuel IH]; intros st st' Hloop; [done|].
  simpl in Hloop.
  destruct (block_crc_map st !! last_processed_block_id st) as [crc|].
  - by apply IH in Hloop.
  - by injection Hloop as <-.
Qed.

Lemma first_one_stuck_no_throw n : Forall no_throw (first_one_stuck n).
Proof.
  unfold first_one_stuck. apply Forall_app. split; [by repeat constructor|].
  induction (n - 1)%nat as [|m IH]; simpl; [constructor|].
  by repeat constructor.
Qed.

(** ** Exceptions in the loop body *)

(** C6. In [source/signature.cpp] a [bad_alloc] thrown while the buffer is
    made is caught with every other exception: its message goes to standard
    error and the loop is left. There is no sleep and the read is not tried
    again; the input stays unread, the drain loop has nothing to wait for and
    [main] ends with an empty output. *)
Theorem bad_alloc_leaves_the_loop checksum block_size_value input :
  exec checksum block_size_value (main_thread (throws bad_alloc)) (init input)
    = Some (with_pc at_drain (print_err "std::bad_alloc" (init input)))
  ∧ run checksum block_size_value
      [main_thread (throws bad_alloc); main_thread try_ok] (init input)
    = Some {| input_file := input; eofbit := false; block_counter := 0;
              last_processed_block_id := 0; block_crc_map := ∅;
              output_file_stream := []; tp := [];
              std_err := ["std::bad_alloc"]; slept_ms := 0; pc := at_done |}.
Proof. split; reflexivity. Qed.

(** The other version of the loop body does what [source/signature.cpp]
    leaves undone: on [bad_alloc] it sleeps 10 ms and is back at the loop
    head with the input, the counter and standard error as they were; any
    other exception ends [main] with [EXIT_FAILURE]. *)
Lemma retry_on_bad_alloc checksum block_size_value st :
  pc st = at_loop_head → eofbit st = false →
  exec_retry checksum block_size_value (main_thread (throws bad_alloc)) st
    = Some (sleep_for 10 st)
  ∧ (∀ w, ∃ st',
       exec_retry checksum block_size_value (main_thread (throws (other_exception w))) st
         = Some st'
       ∧ pc st' = at_exit_failure
       ∧ std_err st' = std_err st ++ ["unexpected exception: " +:+ w]).
Proof.
  intros Hpc Heof. unfold exec_retry, exec_with. rewrite Hpc, Heof.
  split; [done|]. intros w. eexists. split; [done|]. done.
Qed.

Example retry_then_read :
  (λ st, (pc st, block_counter st, slept_ms st, std_err st, length (tp st)))
    <$> foldl (λ o e, o ≫= exec_retry crc_32 8 e) (Some (init sample))
          [main_thread (throws bad_alloc); main_thread (throws bad_alloc);
           main_thread try_ok]
  = Some (at_check, 1, 20, [], 1%nat).
Proof. vm_compute. reflexivity. Qed.

(** * Further properties *)

(** ** [validate] on option strings *)

Lemma digit_value_char d : is_digit d → BlockSize.digit_value (digit_char d) = Some d.
Proof.
  unfold is_digit. intros Hd.
  assert (d = 0 ∨ d = 1 ∨ d = 2 ∨ d = 3 ∨ d = 4 ∨ d = 5 ∨ d = 6 ∨ d = 7 ∨ d = 8 ∨ d = 9)
    as Hcases by lia.
  repeat destruct Hcases as [->|Hcases]; try subst d; reflexivity.
Qed.

Lemma digit_char_value c d :
  BlockSize.digit_value c = Some d → c = digit_char d ∧ is_digit d.
Proof.
  unfold BlockSize.digit_value, digit_char, is_digit.
  generalize (ascii_N_embedding c). generalize (N_of_ascii c). intros n Hn.
  cbv zeta. case_decide as Hc; [|done]. intros [= <-].
  assert (Hd : 0 ≤ Z.of_N n - 48 ≤ 9) by lia. split; [|exact Hd].
  replace (48 + (Z.of_N n - 48)) with (Z.of_N n) by lia.
  by rewrite N2Z.id.
Qed.

Lemma leading_digits_string ds rest :
  Forall is_digit ds →
  (match rest with
   | EmptyString => True
   | String c _ => BlockSize.digit_value c = None
   end) →
  BlockSize.leading_digits (digits_string ds rest) = (ds, rest).
Proof.
  intros Hds Hrest. induction Hds as [|d ds Hd _ IH]; simpl.
  - destruct rest as [|c r]; [done|]. simpl. by rewrite Hrest.
  - by rewrite (digit_value_char d Hd), IH.
Qed.

Lemma leading_digits_inv s : ∀ ds rest,
  BlockSize.leading_digits s = (ds, rest) →
  s = digits_string ds rest ∧ Forall is_digit ds.
Proof.
  induction s as [|c s IH]; intros ds rest Hs; simpl in Hs.
  - by injection Hs as <- <-.
  - destruct (BlockSize.digit_value c) as [d|] eqn:Hc.
    + destruct (BlockSize.leading_digits s) as [ds' rest'].
      injection Hs as <- <-.
      destruct (IH ds' rest' eq_refl) as [-> Hds].
      apply digit_char_value in Hc as [-> Hd].
      split; [done|by constructor].
    + by injection Hs as <- <-.
Qed.

Lemma decimal_app ds d : decimal (ds ++ [d]) = 10 * decimal ds + d.
Proof. unfold decimal. by rewrite foldl_app. Qed.

Lemma decimal_nonneg ds : Forall is_digit ds → 0 ≤ decimal ds.
Proof.
  induction ds as [|d ds IH] using rev_ind; intros Hds; [done|].
  apply Forall_app in Hds as [Hds Hd]. apply Forall_cons in Hd as [Hd _].
  rewrite decimal_app. specialize (IH Hds). unfold is_digit in Hd. lia.
Qed.

Lemma suffix_scale_class c tmp :
  suffix_scale c tmp →
  suffix_string c = EmptyString ∧ c = Ascii.zero
  ∨ suffix_string c = String c EmptyString ∧ BlockSize.suffix_class c = true
    ∧ BlockSize.digit_value c = None.
Proof.
  intros [[-> _]|[[-> _]|[[-> _]|[-> _]]]]; [left|right..]; done.
Qed.

Lemma regex_match_string ds c tmp :
  ds ≠ [] → Forall is_digit ds → suffix_scale c tmp →
  BlockSize.regex_match (digits_string ds (suffix_string c)) = Some (ds, suffix_string c).
Proof.
  intros Hne Hds Hs. unfold BlockSize.regex_match.
  destruct (suffix_scale_class c tmp Hs) as [[-> _]|(-> & Hclass & Hdig)].
  - rewrite leading_digits_string by done. by destruct ds.
  - rewrite leading_digits_string by done. destruct ds; [done|]. by rewrite Hclass.
Qed.

Lemma regex_match_inv s ds suffix :
  BlockSize.regex_match s = Some (ds, suffix) →
  s = digits_string ds suffix ∧ ds ≠ [] ∧ Forall is_digit ds
  ∧ (suffix = EmptyString
     ∨ ∃ c, suffix = String c EmptyString ∧ BlockSize.suffix_class c = true).
Proof.
  unfold BlockSize.regex_match. intros Hm.
  destruct (BlockSize.leading_digits s) as [ds' rest] eqn:Hl.
  apply leading_digits_inv in Hl as [-> Hds].
  destruct ds' as [|d ds']; [done|].
  destruct rest as [|c [|c' rest]]; try done.
  - injection Hm as <- <-. split; [done|]. split; [done|]. split; [done|]. by left.
  - destruct (BlockSize.suffix_class c) eqn:Hc; [|done].
    injection Hm as <- <-. split; [done|]. split; [done|]. split; [done|].
    right. eauto.
Qed.

Lemma validate_digits_suffix ds c tmp :
  ds ≠ [] → Forall is_digit ds → suffix_scale c tmp →
  BlockSize.validate (digits_string ds (suffix_string c)) =
    if decide (decimal ds ≤ uint64_max) then
      if decide (decimal ds = 0) then Undefined
      else if decide (decimal ds * tmp ≤ uint64_max ∧ 1024 ≤ decimal ds * tmp)
        then Returns (BlockSize.value_stored
                        {| BlockSize.number_ := decimal ds; BlockSize.suffix_ := tmp |})
        else Returns BlockSize.validation_error
    else Returns BlockSize.validation_error.
Proof.
  intros Hne Hds Hs. unfold BlockSize.validate.
  rewrite (regex_match_string ds c tmp Hne Hds Hs).
  unfold BlockSize.lexical_cast_uint64. fold (decimal ds).
  pose proof (decimal_nonneg ds Hds) as Hpos.
  case_decide as Hfit; [|done].
  assert (Hc : match suffix_string c with
               | String c' _ => c'
               | EmptyString => Ascii.zero
               end = c).
  { destruct (suffix_scale_class c tmp Hs) as [[-> ->]|(-> & _)]; done. }
  rewrite Hc.
  case_decide as Hz.
  - rewrite Hz. by rewrite (set_zero _ c tmp Hs).
  - rewrite (set_nonzero _ (decimal ds) c tmp) by (unfold is_uint64; done || lia).
    by case_decide.
Qed.

(** X1. What [validate] makes of digits followed by nothing, K, M or G: a
    value that does not fit 64 bits is an error; the value zero runs into
    the division by zero of [set]; otherwise the option is stored exactly
    when the product with the multiplier fits 64 bits and is 1024 or more,
    with the number and the multiplier as read. *)
Theorem validate_well_formed ds c tmp :
  ds ≠ [] → Forall is_digit ds → suffix_scale c tmp →
  BlockSize.validate (digits_string ds (suffix_string c)) =
    if decide (decimal ds ≤ uint64_max) then
      if decide (decimal ds = 0) then Undefined
      else if decide (decimal ds * tmp ≤ uint64_max ∧ 1024 ≤ decimal ds * tmp)
        then Returns (BlockSize.value_stored
                        {| BlockSize.number_ := decimal ds; BlockSize.suffix_ := tmp |})
        else Returns BlockSize.validation_error
    else Returns BlockSize.validation_error.
Proof. apply validate_digits_suffix. Qed.

Lemma validate_well_formed_witness :
  [6; 4] ≠ [] ∧ Forall is_digit [6; 4] ∧ suffix_scale "K" 1024
  ∧ digits_string [6; 4] (suffix_string "K") = "64K"
  ∧ BlockSize.validate "64K" =
      Returns (BlockSize.value_stored
                 {| BlockSize.number_ := 64; BlockSize.suffix_ := 1024 |}).
Proof.
  assert (H1 : [6; 4] ≠ @nil Z) by discriminate.
  assert (H2 : Forall is_digit [6; 4])
    by (repeat constructor; unfold is_digit; lia).
  assert (H3 : suffix_scale "K" 1024) by (right; left; split; reflexivity).
  split; [exact H1|]. split; [exact H2|]. split; [exact H3|].
  split; [reflexivity|].
  exact (validate_well_formed [6; 4] "K" 1024 H1 H2 H3).
Defined.

(** Either the string is rejected, or it is digits followed by nothing, K, M
    or G, with a value that fits 64 bits. *)
Lemma validate_cases s :
  BlockSize.validate s = Returns BlockSize.validation_error
  ∨ ∃ ds c tmp, s = digits_string ds (suffix_string c)
      ∧ ds ≠ [] ∧ Forall is_digit ds ∧ suffix_scale c tmp
      ∧ decimal ds ≤ uint64_max.
Proof.
  unfold BlockSize.validate.
  destruct (BlockSize.regex_match s) as [[ds suffix]|] eqn:Hm; [|by left].
  apply regex_match_inv in Hm as (-> & Hne & Hds & Hsuf).
  unfold BlockSize.lexical_cast_uint64. fold (decimal ds).
  case_decide as Hfit; [|by left].
  set (c := match suffix with String c _ => c | EmptyString => Ascii.zero end).
  destruct (BlockSize.suffix_multiplier c) as [tmp|] eqn:Hmul.
  - right. apply suffix_multiplier_scale in Hmul. exists ds, c, tmp.
    split; [|done]. f_equal.
    destruct Hsuf as [->|(c' & -> & Hclass)]; simpl in c; subst c.
    + done.
    + destruct (suffix_scale_class c' tmp Hmul) as [[_ ->]|(-> & _)]; done.
  - left. rewrite set_unknown_suffix; [done|].
    intros tmp Hs. apply suffix_multiplier_scale in Hs. congruence.
Qed.

(** X2. [validate] rejects with a validation error every string that is not
    a run of decimal digits followed by nothing or by one of K, M, G: the
    empty string, a sign, a fraction, a longer or lower-case suffix, and the
    bar that the character class of the regex lets through. *)
Theorem validate_rejects_other_strings s :
  (∀ ds c tmp, ds ≠ [] → Forall is_digit ds → suffix_scale c tmp →
     s ≠ digits_string ds (suffix_string c)) →
  BlockSize.validate s = Returns BlockSize.validation_error.
Proof.
  intros Hother.
  destruct (validate_cases s) as [?|(ds & c & tmp & -> & Hne & Hds & Hs & _)]; [done|].
  by destruct (Hother ds c tmp Hne Hds Hs).
Qed.

Lemma validate_rejects_other_strings_witness :
  BlockSize.validate "4096|" = Returns BlockSize.validation_error.
Proof.
  apply validate_rejects_other_strings.
  intros ds c tmp Hne Hds Hs Heq.
  assert (Hl : BlockSize.leading_digits (digits_string ds (suffix_string c))
               = (ds, suffix_string c)).
  { apply leading_digits_string; [done|].
    destruct (suffix_scale_class c tmp Hs) as [[-> _]|(-> & _ & ?)]; done. }
  rewrite <- Heq in Hl. vm_compute in Hl.
  injection Hl as <- Hsuf.
  destruct Hs as [[-> _]|[[-> _]|[[-> _]|[-> _]]]]; discriminate Hsuf.
Defined.

Lemma validate_stored s bs :
  BlockSize.validate s = Returns (BlockSize.value_stored bs) →
  ∃ ds c, s = digits_string ds (suffix_string c)
    ∧ ds ≠ [] ∧ Forall is_digit ds
    ∧ BlockSize.number_ bs = decimal ds
    ∧ suffix_scale c (BlockSize.suffix_ bs)
    ∧ BlockSize.get bs = decimal ds * BlockSize.suffix_ bs
    ∧ 1024 ≤ BlockSize.get bs ≤ uint64_max.
Proof.
  intros Hv.
  destruct (validate_cases s) as [He|(ds & c & tmp & -> & Hne & Hds & Hs & Hfit)];
    [congruence|].
  rewrite (validate_digits_suffix ds c tmp Hne Hds Hs) in Hv.
  rewrite decide_True in Hv by done.
  case_decide; [done|]. case_decide as Hr; [|done].
  injection Hv as <-. exists ds, c. simpl.
  repeat (split; [done|]).
  unfold BlockSize.get. simpl.
  rewrite wrap64_small by (unfold is_uint64; lia). lia.
Qed.

(** X3. Whatever [validate] stores came from digits followed by nothing, K,
    M or G; the stored number is the value of the digits and the stored
    multiplier that of the suffix; [get()] is their product, without
    wrap-around, and lies between 1024 and the largest 64-bit value. *)
Theorem validate_stores_in_range s bs :
  BlockSize.validate s = Returns (BlockSize.value_stored bs) →
  ∃ ds c, s = digits_string ds (suffix_string c)
    ∧ ds ≠ [] ∧ Forall is_digit ds
    ∧ BlockSize.number_ bs = decimal ds
    ∧ suffix_scale c (BlockSize.suffix_ bs)
    ∧ BlockSize.get bs = decimal ds * BlockSize.suffix_ bs
    ∧ 1024 ≤ BlockSize.get bs ≤ uint64_max.
Proof. apply validate_stored. Qed.

Lemma validate_stores_in_range_witness :
  ∃ bs, BlockSize.validate "2M" = Returns (BlockSize.value_stored bs)
    ∧ BlockSize.get bs = 2097152.
Proof.
  eexists. split; [reflexivity|].
  destruct (validate_stores_in_range "2M" _ eq_refl)
    as (ds & c & _ & _ & _ & _ & _ & _ & _).
  reflexivity.
Defined.

(** ** The argument checks of [main], all branches *)

(** [main_checks] is [main_checks_at] when every path leads to a file of its
    own. *)
Lemma main_checks_at_own_file argc cl fs writable :
  main_checks_at (λ path, path) argc cl fs writable
    = main_checks argc cl fs writable.
Proof.
  destruct cl as [w|help inp out bsv]; simpl; [done|].
  destruct (help || bool_decide (argc = 1)); [done|].
  case_decide as Hsame; [done|].
  destruct (fs !! inp) as [input|] eqn:Hin; [|done].
  destruct (writable out); [|done].
  by rewrite lookup_insert_ne, Hin.
Qed.

(** X4. Before the loop [main] changes no file but the one the output path
    leads to, and that one only when both streams are open: then the paths
    differ as typed and the file of the output path is empty; every other
    file is as it was. Every early return leaves all files as they were, and
    the output stream is constructed only after the input stream was opened.
    The comparison of the paths does not see two paths that lead to one
    file. When they lead to two files, the loop gets the contents of the
    input file, which is left as it was; when they lead to one, the input
    file is emptied before a byte of it is read and the loop gets an empty
    input. *)
Theorem main_checks_change_only_the_output resolve argc cl fs writable :
  let r := main_checks_at resolve argc cl fs writable in
  (∀ code, result r = returned code → files r = fs)
  ∧ (∀ seen out bsz, result r = streams_open seen out bsz →
       ∃ inp bsv input, cl = parsed false inp out bsv
         ∧ argc ≠ 1 ∧ inp ≠ out
         ∧ fs !! resolve inp = Some input ∧ writable out = true
         ∧ bsz = BlockSize.get bsv
         ∧ files r = <[resolve out := []]> fs
         ∧ (∀ file, file ≠ resolve out → files r !! file = fs !! file)
         ∧ file_ops r = [open_ifstream inp; open_ofstream_trunc out]
         ∧ (resolve inp ≠ resolve out →
              seen = input ∧ files r !! resolve inp = Some input)
         ∧ (resolve inp = resolve out →
              seen = [] ∧ files r !! resolve inp = Some []))
  ∧ (∀ out, open_ofstream_trunc out ∈ file_ops r →
       ∃ inp, file_ops r = [open_ifstream inp; open_ofstream_trunc out]
         ∧ is_Some (fs !! resolve inp)).
Proof.
  destruct cl as [w|help inp out bsv]; simpl.
  { split; [done|]. split; [done|]. intros out Hin. by apply elem_of_nil in Hin. }
  destruct help; simpl.
  { split; [done|]. split; [done|]. intros o Hin. by apply elem_of_nil in Hin. }
  case_bool_decide as Hargc; simpl.
  { split; [done|]. split; [done|]. intros o Hin. by apply elem_of_nil in Hin. }
  case_decide as Hsame; simpl.
  { split; [done|]. split; [done|]. intros o Hin. by apply elem_of_nil in Hin. }
  destruct (fs !! resolve inp) as [input|] eqn:Hin; simpl.
  - destruct (writable out) eqn:Hw; simpl.
    + split; [done|]. split.
      * intros seen out' bsz [= <- <- <-]. exists inp, bsv, input.
        repeat (split; [done|]).
        split; [by intros file Hfile; rewrite lookup_insert_ne|].
        split; [done|]. split.
        -- intros Hne. by rewrite lookup_insert_ne, Hin.
        -- intros ->. by rewrite lookup_insert_eq.
      * intros o Ho. exists inp.
        apply elem_of_cons in Ho as [[=]|Ho].
        apply list_elem_of_singleton in Ho as [= ->]. eauto.
    + split; [done|]. split; [done|].
      intros o Ho. exists inp.
      apply elem_of_cons in Ho as [[=]|Ho].
      apply list_elem_of_singleton in Ho as [= ->]. eauto.
  - split; [done|]. split; [done|].
    intros o Ho. apply list_elem_of_singleton in Ho. done.
Qed.

(** One file under the paths data.bin and ./data.bin: the comparison lets
    them pass, the file is emptied, and the loop starts on an empty input. *)
Example one_file_under_two_paths :
  let resolve := λ path : string,
    if decide (path = "./data.bin") then "data.bin" else path in
  let r := main_checks_at resolve 5
             (parsed false "data.bin" "./data.bin"
                (BlockSize.from_number BlockSize.BLOCK_SIZE_MEGABYTE))
             {["data.bin" := sample]} (λ _, true) in
  result r = streams_open [] "./data.bin" 1048576
  ∧ files r !! "data.bin" = Some [].
Proof. split; reflexivity. Qed.

(** X5. The early returns of [main] use two exit codes: [EXIT_SUCCESS] with
    the option description on standard output and nothing on standard error,
    which happens only for help; [EXIT_FAILURE] with exactly one message on
    standard error. When the streams are open nothing has gone to standard
    error and the three lines of settings are on standard output. *)
Theorem main_checks_exit_codes argc cl fs writable :
  let r := main_checks argc cl fs writable in
  match result r with
  | returned code =>
      (code = EXIT_SUCCESS ∧ std_cerr r = [] ∧ std_cout r = [options_description]
       ∧ ∃ help inp out bsv, cl = parsed help inp out bsv
           ∧ (help = true ∨ argc = 1))
      ∨ (code = EXIT_FAILURE ∧ ∃ message, std_cerr r = [text message])
  | streams_open _ _ _ => std_cerr r = [] ∧ length (std_cout r) = 3%nat
  end.
Proof.
  destruct cl as [w|help inp out bsv]; simpl.
  { right. eauto. }
  destruct help; simpl.
  { left. repeat (split; [done|]). eexists _, _, _, _. split; [done|]. by left. }
  case_bool_decide as Hargc; simpl.
  { left. repeat (split; [done|]). eexists _, _, _, _. split; [done|]. by right. }
  case_decide as Hsame; simpl.
  { right. eauto. }
  destruct (fs !! inp) as [input|]; simpl; [|right; eauto].
  destruct (writable out); simpl; [done|right; eauto].
Qed.

(** ** Runs with exceptions *)

Lemma restore_quiet st : restore (pc st) (std_err st) (quiet st) = st.
Proof. by destruct st. Qed.

Lemma crc_saver_loop_restore fuel : ∀ st l err,
  crc_saver_loop fuel (restore l err st) = restore l err <$> crc_saver_loop fuel st.
Proof.
  induction fuel as [|fuel IH]; intros st l err; simpl; [done|].
  destruct (block_crc_map st !! last_processed_block_id st) as [crc|]; [|done].
  apply (IH (save_crc crc st)).
Qed.

Lemma crc_saver_restore st l err :
  crc_saver (restore l err st) = restore l err <$> crc_saver st.
Proof. apply crc_saver_loop_restore. Qed.

(** [crc_saver] stops on an id that is not in the map, so a second call
    writes nothing. *)
Lemma crc_saver_loop_gap fuel : ∀ st st',
  crc_saver_loop fuel st = Some st' →
  block_crc_map st' !! last_processed_block_id st' = None
  ∧ block_crc_map st' = block_crc_map st.
Proof.
  induction fuel as [|fuel IH]; intros st st' Hloop; [done|].
  simpl in Hloop.
  destruct (block_crc_map st !! last_processed_block_id st) as [crc|] eqn:E.
  - by apply IH in Hloop.
  - by injection Hloop as <-.
Qed.

(** X6. When [crc_saver] returns, [last_processed_block_id] is an id that is
    not in the map, the map is as before, and calling [crc_saver] again
    changes nothing. *)
Theorem crc_saver_twice st st' :
  crc_saver st = Some st' →
  block_crc_map st' !! last_processed_block_id st' = None
  ∧ block_crc_map st' = block_crc_map st
  ∧ crc_saver st' = Some st'.
Proof.
  intros Hs. apply crc_saver_loop_gap in Hs as [Hgap Hmap].
  split; [done|]. split; [done|].
  unfold crc_saver. simpl. by rewrite Hgap.
Qed.

Lemma crc_saver_twice_witness :
  ∃ st', crc_saver (store (insert_all [(0, 10); (1, 11); (3, 13)]) 0) = Some st'
    ∧ output_file_stream st' = [10; 11]
    ∧ crc_saver st' = Some st'.
Proof.
  eexists. split; [reflexivity|]. split; [reflexivity|].
  apply (crc_saver_twice (store (insert_all [(0, 10); (1, 11); (3, 13)]) 0)).
  reflexivity.
Defined.

Lemma run_cons checksum block_size_value e trace st :
  run checksum block_size_value (e :: trace) st
    = exec checksum block_size_value e st ≫= run checksum block_size_value trace.
Proof. simpl. by destruct (exec checksum block_size_value e st). Qed.

Lemma exec_worker checksum block_size_value j t st :
  tp st !! j = Some t →
  exec checksum block_size_value (worker_thread j) st
    = Some (run_task checksum t (with_tp (delete j (tp st)) st)).
Proof. intros Hj. unfold exec, exec_with. by rewrite Hj. Qed.

Section Kept.

Variable checksum : list byte → Z.
Variable bs : nat.
Variable input : list byte.
Hypothesis Hbs : (0 < bs)%nat.
Hypothesis Hlen : Z.of_nat (length input) < 2 ^ 63.

Local Abbreviation Kept' := (Kept checksum bs input).
Local Abbreviation Inv' := (Inv checksum bs input).

Lemma inv_kept k c st :
  Inv' k c st →
  (∀ j : nat, (j < c)%nat → is_Some (block_crc_map st !! Z.of_nat j)) →
  (size (block_crc_map st) + length (tp st) = k)%nat →
  Kept' k c st.
Proof.
  intros HI Hw Hc. constructor; try done.
  - destruct HI. constructor; simpl; try done. by intros [?|?].
  - by destruct HI.
Qed.

Lemma kept_init : Kept' 0 0 (init input).
Proof.
  apply inv_kept; [apply (inv_init checksum bs input Hbs)| |done].
  intros j Hj. lia.
Qed.

Lemma kept_read k c st :
  Kept' k c st → eofbit st = false →
  Kept' (S k) c (read_block (Z.of_nat bs) st).
Proof.
  intros [] Heof.
  destruct (read_block_inv checksum bs input Hbs Hlen k c (quiet st) kept_inv0 Heof)
    as [HI _].
  constructor; try done.
  - unfold read_block, istream_read in *. simpl. rewrite length_app. simpl. lia.
Qed.

Lemma kept_with_pc k c st l :
  Kept' k c st → (l = at_done → c = k) → Kept' k c (with_pc l st).
Proof. intros [] Hl. constructor; done. Qed.

Lemma kept_print_err k c st s : Kept' k c st → Kept' k c (print_err s st).
Proof. intros []. constructor; done. Qed.

Lemma kept_sleep_for k c st ms : Kept' k c st → Kept' k c (sleep_for ms st).
Proof.
  intros []. constructor; try done.
  apply (sleep_for_inv checksum bs input k c (quiet st) ms kept_inv0).
Qed.

Lemma kept_task k c st j t :
  Kept' k c st → tp st !! j = Some t →
  Kept' k c (run_task checksum t (with_tp (delete j (tp st)) st))
  ∧ block_crc_map st !! task.block_counter t = None
  ∧ run_task_retry checksum t (with_tp (delete j (tp st)) st)
    = run_task checksum t (with_tp (delete j (tp st)) st).
Proof.
  intros [] Hj.
  destruct (run_task_inv checksum bs input Hbs k c (quiet st) j t kept_inv0 Hj)
    as (HI & Hnone & Hmap & Htp & _ & _).
  simpl in Hnone.
  assert (Hst : run_task checksum t (with_tp (delete j (tp st)) st)
                = with_map (<[task.block_counter t := crc_value checksum t]>
                              (block_crc_map st))
                    (with_tp (delete j (tp st)) st)).
  { unfold run_task, map_insert. simpl. by rewrite Hnone. }
  split; [|split; [done|]].
  - rewrite Hst. constructor; simpl; try done.
    + unfold run_task, map_insert in HI. simpl in HI. by rewrite Hnone in HI.
    + intros i Hi. apply lookup_insert_is_Some'. right. by apply kept_written0.
    + rewrite map_size_insert_None by done.
      rewrite length_delete by eauto.
      apply lookup_lt_Some in Hj. lia.
  - rewrite Hst. unfold run_task_retry, map_insert. simpl. by rewrite Hnone.
Qed.

Lemma kept_crc_saver k c st :
  Kept' k c st →
  ∃ n : nat, crc_saver st = Some (after_saving n st)
    ∧ Kept' k (c + n) (after_saving n st)
    ∧ block_crc_map st !! Z.of_nat (c + n) = None.
Proof.
  intros [].
  destruct (crc_saver_inv checksum bs input Hbs Hlen k c (quiet st) kept_inv0)
    as (n & Hres & HI & Hgap).
  exists n. simpl in Hgap.
  assert (Hst : crc_saver st = Some (after_saving n st)).
  { rewrite <- (restore_quiet st) at 1. rewrite crc_saver_restore, Hres.
    by destruct st. }
  split; [done|]. split; [|done].
  assert (Hcn : (c + n ≤ k)%nat) by (by destruct HI).
  pose proof (reads_uint64 bs input Hbs Hlen k ltac:(by destruct kept_inv0)) as Hk.
  constructor; try done.
  - intros Hpc. specialize (kept_done0 Hpc). lia.
  - intros j Hj. simpl.
    destruct (decide (j < c)%nat) as [Hlt|Hge]; [by apply kept_written0|].
    assert (Hu : is_uint64 (last_processed_block_id (quiet st))).
    { destruct kept_inv0. rewrite inv_cursor0. unfold is_uint64, uint64_max. lia. }
    assert (Hsize : (size (block_crc_map (quiet st)) ≤ k)%nat).
    { apply size_below. intros i v Hi.
      destruct kept_inv0. destruct (inv_map0 i v Hi) as (j' & ? & ? & _). eauto. }
    destruct (crc_saver_returns (quiet st) Hu ltac:(lia))
      as (n' & _ & Hall & _ & Hres').
    assert (Hnn : n' = n).
    { assert (Hout : output_file_stream (after_saving n' (quiet st))
                     = output_file_stream (after_saving n (quiet st)))
        by congruence.
      apply (f_equal length) in Hout. simpl in Hout.
      rewrite !length_app in Hout. unfold run_values in Hout.
      rewrite !length_fmap, !length_seq in Hout. lia. }
    subst n'. specialize (Hall (j - c)%nat ltac:(lia)).
    destruct kept_inv0. simpl in Hall. simpl in inv_cursor0.
    rewrite inv_cursor0 in Hall.
    rewrite wrap64_small in Hall by (unfold is_uint64, uint64_max; lia).
    by replace (Z.of_nat c + Z.of_nat (j - c)) with (Z.of_nat j) in Hall by lia.
Qed.

(** *** Steps of either version *)

Lemma kept_loop_body k c st r :
  Kept' k c st → eofbit st = false →
  ∃ k', Kept' k' c (loop_body (Z.of_nat bs) r st) ∧ (k ≤ k')%nat.
Proof.
  intros HK Heof. destruct r as [|e]; simpl.
  - exists (S k). split; [by apply kept_read|lia].
  - exists k. split; [|lia]. apply kept_with_pc; [by apply kept_print_err|done].
Qed.

Lemma kept_loop_body_retry k c st r :
  Kept' k c st → eofbit st = false →
  ∃ k', Kept' k' c (loop_body_retry (Z.of_nat bs) r st) ∧ (k ≤ k')%nat.
Proof.
  intros HK Heof. destruct r as [|[|w]]; simpl.
  - exists (S k). split; [by apply kept_read|lia].
  - exists k. split; [by apply kept_sleep_for|lia].
  - exists k. split; [|lia]. apply kept_with_pc; [by apply kept_print_err|done].
Qed.

Lemma exec_with_kept body lambda :
  (∀ k c st r, Kept' k c st → eofbit st = false →
     ∃ k', Kept' k' c (body r st) ∧ (k ≤ k')%nat) →
  (∀ k c st j t, Kept' k c st → tp st !! j = Some t →
     lambda t (with_tp (delete j (tp st)) st)
     = run_task checksum t (with_tp (delete j (tp st)) st)) →
  ∀ k c st e st',
    Kept' k c st → exec_with body lambda e st = Some st' →
    ∃ k' c', Kept' k' c' st' ∧ (k ≤ k')%nat ∧ (c ≤ c')%nat.
Proof.
  intros Hbody Hlambda k c st e st' HK Hexec. unfold exec_with in Hexec.
  destruct e as [r|j].
  - destruct (pc st) eqn:Hpc; try done.
    + destruct (eofbit st) eqn:Heof.
      * injection Hexec as <-. exists k, c. split; [|lia]. by apply kept_with_pc.
      * injection Hexec as <-.
        destruct (Hbody k c st r HK Heof) as (k' & HK' & ?).
        exists k', c. split; [done|lia].
    + case_decide.
      * destruct (kept_crc_saver k c st HK) as (n & Hres & HK' & _).
        rewrite Hres in Hexec. injection Hexec as <-.
        exists k, (c + n)%nat. split; [|lia]. by apply kept_with_pc.
      * injection Hexec as <-. exists k, c. split; [|lia]. by apply kept_with_pc.
    + case_decide as Hne.
      * destruct (kept_crc_saver k c (sleep_for 10 st) (kept_sleep_for _ _ _ _ HK))
          as (n & Hres & HK' & _).
        rewrite Hres in Hexec. injection Hexec as <-.
        exists k, (c + n)%nat. split; [done|lia].
      * injection Hexec as <-. exists k, c. split; [|lia].
        apply kept_with_pc; [done|]. intros _.
        destruct HK as [[] _ _ _]. simpl in *.
        rewrite inv_counter0, inv_cursor0 in Hne. lia.
  - destruct (tp st !! j) as [t|] eqn:Hj; [|done]. injection Hexec as <-.
    rewrite (Hlambda k c st j t HK Hj).
    exists k, c. split; [|lia]. by apply kept_task.
Qed.

Lemma exec_kept k c st e st' :
  Kept' k c st → exec checksum (Z.of_nat bs) e st = Some st' →
  ∃ k' c', Kept' k' c' st' ∧ (k ≤ k')%nat ∧ (c ≤ c')%nat.
Proof.
  apply exec_with_kept; [apply kept_loop_body|done].
Qed.

Lemma exec_retry_kept k c st e st' :
  Kept' k c st → exec_retry checksum (Z.of_nat bs) e st = Some st' →
  ∃ k' c', Kept' k' c' st' ∧ (k ≤ k')%nat ∧ (c ≤ c')%nat.
Proof.
  apply exec_with_kept; [apply kept_loop_body_retry|].
  intros k0 c0 st0 j t HK Hj. by apply (kept_task k0 c0 st0 j t HK Hj).
Qed.

Lemma run_kept trace : ∀ k c st st',
  Kept' k c st → run checksum (Z.of_nat bs) trace st = Some st' →
  ∃ k' c', Kept' k' c' st' ∧ (k ≤ k')%nat ∧ (c ≤ c')%nat.
Proof.
  induction trace as [|e trace IH]; intros k c st st' HK Hrun.
  - injection Hrun as <-. exists k, c. split; [done|lia].
  - simpl in Hrun.
    destruct (exec checksum (Z.of_nat bs) e st) as [st1|] eqn:He; [|done].
    destruct (exec_kept _ _ _ _ _ HK He) as (k1 & c1 & HK1 & ? & ?).
    destruct (IH _ _ _ _ HK1 Hrun) as (k2 & c2 & HK2 & ? & ?).
    exists k2, c2. split; [done|lia].
Qed.

(** What [Kept] says in terms of the state alone. *)
Lemma kept_facts k c st :
  Kept' k c st →
  block_counter st = Z.of_nat k
  ∧ last_processed_block_id st = Z.of_nat c
  ∧ (c ≤ k ≤ reads bs input)%nat
  ∧ output_file_stream st = checksum <$> take c (blocks bs input)
  ∧ (pc st = at_done → c = k ∧ tp st = []).
Proof.
  intros [[] Hdone Hwritten Hcount]. simpl in *.
  split; [done|]. split; [done|]. split; [lia|]. split.
  - rewrite inv_output0. unfold blocks.
    rewrite <- fmap_take, take_seq, <- list_fmap_compose.
    by replace (c `min` reads bs input)%nat with c by lia.
  - intros Hpc. specialize (Hdone Hpc). subst c. split; [done|].
    assert (Hk : (k ≤ size (block_crc_map st))%nat).
    { apply (run_within_size _ 0).
      - pose proof (reads_uint64 bs input Hbs Hlen k inv_reads0). lia.
      - intros i Hi. rewrite Z.add_0_l, wrap64_small.
        + by apply Hwritten.
        + pose proof (reads_uint64 bs input Hbs Hlen k inv_reads0).
          unfold is_uint64, uint64_max. lia. }
    apply nil_length_inv. lia.
Qed.

Lemma kept_pending k c st t :
  Kept' k c st → t ∈ tp st →
  ∃ j : nat, task.block_counter t = Z.of_nat j ∧ (c ≤ j < k)%nat
    ∧ block_crc_map st !! task.block_counter t = None.
Proof.
  intros [[] _ Hwritten _] Ht. simpl in *.
  destruct (inv_tasks0 t Ht) as (j & Hid & Hj & _ & _ & _ & Hnone).
  exists j. rewrite Hid. split; [done|]. split; [|done].
  destruct (decide (j < c)%nat) as [Hlt|]; [|lia].
  destruct (Hwritten j Hlt) as [v Hv]. congruence.
Qed.

(** *** The drain loop after any run *)

Lemma pool_drains_kept n : ∀ k c st,
  Kept' k c st → length (tp st) = n →
  ∃ st', run checksum (Z.of_nat bs) (replicate n (worker_thread 0)) st = Some st'
    ∧ Kept' k c st' ∧ tp st' = [] ∧ pc st' = pc st.
Proof.
  induction n as [|n IH]; intros k c st HK Hn.
  - exists st. split; [done|]. split; [done|]. split; [by apply nil_length_inv|done].
  - destruct (tp st) as [|t q] eqn:Hq; [done|].
    assert (Hj : tp st !! 0%nat = Some t) by (by rewrite Hq).
    destruct (kept_task k c st 0 t HK Hj) as (HK1 & Hnone & _).
    set (st1 := run_task checksum t (with_tp (delete 0%nat (tp st)) st)) in *.
    assert (Hst1 : tp st1 = q ∧ pc st1 = pc st).
    { unfold st1, run_task, map_insert. simpl. rewrite Hnone, Hq. done. }
    destruct Hst1 as [Htp1 Hpc1].
    destruct (IH k c st1 HK1) as (st' & Hrun & HK' & Htp' & Hpc').
    { rewrite Htp1. simpl in Hn. lia. }
    exists st'. split; [|split; [done|split; [done|congruence]]].
    change (replicate (S n) (worker_thread 0))
      with (worker_thread 0 :: replicate n (worker_thread 0)).
    by rewrite run_cons, (exec_worker _ _ _ _ _ Hj).
Qed.

Lemma drain_ends_kept k c st :
  Kept' k c st → tp st = [] → pc st = at_drain →
  ∃ trace st' c', (length trace ≤ 2)%nat ∧ Forall no_throw trace
    ∧ run checksum (Z.of_nat bs) trace st = Some st' ∧ pc st' = at_done
    ∧ Kept' k c' st'.
Proof.
  intros HK Htp Hpc.
  destruct (decide (last_processed_block_id st ≠ block_counter st)) as [Hne|Heq].
  - destruct (kept_crc_saver k c (sleep_for 10 st) (kept_sleep_for _ _ _ _ HK))
      as (n & Hres & HK1 & Hgap).
    set (st1 := after_saving n (sleep_for 10 st)) in *.
    assert (Hcn : (c + n = k)%nat).
    { destruct (kept_facts _ _ _ HK1) as (_ & _ & Hle & _).
      destruct (decide (c + n < k)%nat) as [Hlt|]; [|lia].
      destruct HK as [[] _ _ _]. simpl in *.
      destruct (inv_cover0 _ Hlt) as [[v Hv]|Hin].
      - congruence.
      - rewrite Htp in Hin. by apply elem_of_nil in Hin. }
    exists [main_thread try_ok; main_thread try_ok], (with_pc at_done st1), (c + n)%nat.
    split; [simpl; lia|]. split; [by repeat constructor|].
    split; [|split; [done|by apply kept_with_pc]].
    simpl. unfold exec, exec_with. rewrite Hpc, decide_True by done.
    rewrite Hres. fold st1.
    assert (Hpc1 : pc st1 = at_drain) by done. rewrite Hpc1.
    destruct (kept_facts _ _ _ HK1) as (Hk1 & Hc1 & _).
    rewrite decide_False; [done|]. rewrite Hk1, Hc1. intros Hne'. apply Hne'. lia.
  - exists [main_thread try_ok], (with_pc at_done st), c.
    assert (Hck : c = k).
    { destruct (kept_facts _ _ _ HK) as (Hk & Hc & _).
      rewrite Hk, Hc in Heq. apply dec_stable in Heq. lia. }
    split; [simpl; lia|]. split; [by repeat constructor|].
    split; [|split; [done|by apply kept_with_pc]].
    simpl. unfold exec, exec_with. by rewrite Hpc, decide_False.
Qed.

Lemma reachable_kept trace st :
  run checksum (Z.of_nat bs) trace (init input) = Some st → ∃ k c, Kept' k c st.
Proof.
  intros Hrun.
  destruct (run_kept trace 0 0 _ _ kept_init Hrun) as (k & c & HK & _). eauto.
Qed.

End Kept.

Lemma alloc_fails_at_second_runs :
  (λ st, (pc st, block_counter st, output_file_stream st, std_err st))
    <$> run crc_32 (Z.of_nat 8) alloc_fails_at_second (init sample)
  = Some (at_done, 1, crc_32 <$> take 1 (blocks 8 sample), ["std::bad_alloc"]).
Proof. vm_compute. reflexivity. Qed.

(** X7. In every run of [source/signature.cpp], exceptions in the loop body
    included, [last_processed_block_id] never passes [block_counter], the
    output is the checksums of the first [last_processed_block_id] blocks of
    the input in order, and when [main] is past its drain loop the output
    holds exactly the blocks read and no task is left in the pool: an
    exception cuts the output short, it does not disorder it. *)
Theorem every_run_keeps_the_order checksum bs input trace st :
  (0 < bs)%nat → Z.of_nat (length input) < 2 ^ 63 →
  run checksum (Z.of_nat bs) trace (init input) = Some st →
  ∃ k c : nat,
    block_counter st = Z.of_nat k
    ∧ last_processed_block_id st = Z.of_nat c
    ∧ (c ≤ k ≤ reads bs input)%nat
    ∧ output_file_stream st = checksum <$> take c (blocks bs input)
    ∧ (pc st = at_done → c = k ∧ tp st = []).
Proof.
  intros Hbs Hlen Hrun.
  destruct (reachable_kept checksum bs input Hbs Hlen trace st Hrun) as (k & c & HK).
  exists k, c. by apply (kept_facts checksum bs input Hbs Hlen).
Qed.

Lemma every_run_keeps_the_order_witness :
  (0 < 8)%nat ∧ Z.of_nat (length sample) < 2 ^ 63
  ∧ ∃ st, run crc_32 (Z.of_nat 8) alloc_fails_at_second (init sample) = Some st
      ∧ pc st = at_done
      ∧ ∃ k c : nat, block_counter st = Z.of_nat k
          ∧ output_file_stream st = crc_32 <$> take c (blocks 8 sample)
          ∧ (pc st = at_done → c = k ∧ tp st = []).
Proof.
  split; [lia|]. split; [exact sample_length|].
  pose proof alloc_fails_at_second_runs as Hrun.
  destruct (run crc_32 (Z.of_nat 8) alloc_fails_at_second (init sample))
    as [st|] eqn:Hst; [|discriminate Hrun].
  injection Hrun as Hpc _ _ _.
  exists st. split; [reflexivity|]. split; [exact Hpc|].
  destruct (every_run_keeps_the_order crc_32 8 sample alloc_fails_at_second st
              ltac:(lia) sample_length Hst) as (k & c & Hk & _ & _ & Hout & Hdone).
  exists k, c. split; [exact Hk|]. split; [exact Hout|exact Hdone].
Defined.

(** X8. In every run each block read is accounted for once: the entries of
    the map and the tasks in the pool together number [block_counter]; the
    tasks in the pool have pairwise different ids, none of them in the map
    and none below [last_processed_block_id]; and every id below
    [last_processed_block_id] is still in the map. *)
Theorem blocks_read_are_accounted_for checksum bs input trace st :
  (0 < bs)%nat → Z.of_nat (length input) < 2 ^ 63 →
  run checksum (Z.of_nat bs) trace (init input) = Some st →
  Z.of_nat (size (block_crc_map st) + length (tp st)) = block_counter st
  ∧ NoDup (task.block_counter <$> tp st)
  ∧ (∀ t, t ∈ tp st →
       last_processed_block_id st ≤ task.block_counter t < block_counter st
       ∧ block_crc_map st !! task.block_counter t = None)
  ∧ (∀ j, 0 ≤ j < last_processed_block_id st → is_Some (block_crc_map st !! j)).
Proof.
  intros Hbs Hlen Hrun.
  destruct (reachable_kept checksum bs input Hbs Hlen trace st Hrun) as (k & c & HK).
  destruct (kept_facts checksum bs input Hbs Hlen k c st HK) as (Hk & Hc & _).
  split; [|split; [|split]].
  - rewrite Hk. f_equal. by destruct HK.
  - destruct HK as [[] _ _ _]. done.
  - intros t Ht.
    assert (∃ j : nat, task.block_counter t = Z.of_nat j ∧ (c ≤ j < k)%nat
              ∧ block_crc_map st !! task.block_counter t = None)
      as (j & Hid & Hj & Hnone) by (eapply kept_pending; eauto).
    rewrite Hk, Hc, Hid. split; [lia|]. by rewrite <- Hid.
  - intros j Hj. rewrite Hc in Hj.
    replace j with (Z.of_nat (Z.to_nat j)) by lia.
    destruct HK as [_ _ Hwritten _]. apply Hwritten. lia.
Qed.

Lemma blocks_read_are_accounted_for_witness :
  (0 < 8)%nat ∧ Z.of_nat (length sample) < 2 ^ 63
  ∧ ∃ st, run crc_32 (Z.of_nat 8)
            [main_thread try_ok; main_thread try_ok; main_thread try_ok; worker_thread 1]
            (init sample) = Some st
      ∧ length (tp st) = 1%nat
      ∧ Z.of_nat (size (block_crc_map st) + length (tp st)) = block_counter st.
Proof.
  split; [lia|]. split; [exact sample_length|].
  assert (Hrun : ∃ st, run crc_32 (Z.of_nat 8)
            [main_thread try_ok; main_thread try_ok; main_thread try_ok; worker_thread 1]
            (init sample) = Some st ∧ length (tp st) = 1%nat)
    by (vm_compute; eexists; split; reflexivity).
  destruct Hrun as (st & Hrun & Hlen).
  exists st. split; [exact Hrun|]. split; [exact Hlen|].
  exact (proj1 (blocks_read_are_accounted_for crc_32 8 sample _ st
                  ltac:(lia) sample_length Hrun)).
Defined.

(** X9. Once the read loop is left, at the end of the input or through an
    exception, [main] comes to its end: when the tasks still in the pool
    have finished, the drain loop takes at most one more turn, and then no
    task is left. *)
Theorem drain_loop_ends checksum bs input trace st :
  (0 < bs)%nat → Z.of_nat (length input) < 2 ^ 63 →
  run checksum (Z.of_nat bs) trace (init input) = Some st →
  pc st = at_drain →
  ∃ turns st', (length turns ≤ 2)%nat ∧ Forall no_throw turns
    ∧ run checksum (Z.of_nat bs)
        (replicate (length (tp st)) (worker_thread 0) ++ turns) st = Some st'
    ∧ pc st' = at_done ∧ tp st' = []
    ∧ block_counter st' = block_counter st.
Proof.
  intros Hbs Hlen Hrun Hpc.
  destruct (reachable_kept checksum bs input Hbs Hlen trace st Hrun) as (k & c & HK).
  assert (∃ st1, run checksum (Z.of_nat bs)
                   (replicate (length (tp st)) (worker_thread 0)) st = Some st1
            ∧ Kept checksum bs input k c st1 ∧ tp st1 = [] ∧ pc st1 = pc st)
    as (st1 & Hrun1 & HK1 & Htp1 & Hpc1) by (eapply pool_drains_kept; eauto).
  rewrite Hpc in Hpc1.
  assert (∃ turns st' c', (length turns ≤ 2)%nat ∧ Forall no_throw turns
            ∧ run checksum (Z.of_nat bs) turns st1 = Some st' ∧ pc st' = at_done
            ∧ Kept checksum bs input k c' st')
    as (turns & st' & c' & Hlen' & Hnt & Hrun' & Hpc' & HK')
    by (eapply drain_ends_kept; eauto).
  exists turns, st'. split; [done|]. split; [done|].
  split; [by rewrite run_app, Hrun1|]. split; [done|].
  destruct (kept_facts checksum bs input Hbs Hlen k c' st' HK') as (Hk' & _ & _ & _ & Hd).
  destruct (kept_facts checksum bs input Hbs Hlen k c st HK) as (Hk & _).
  split; [by apply Hd|congruence].
Qed.

Lemma drain_loop_ends_witness :
  (0 < 8)%nat ∧ Z.of_nat (length sample) < 2 ^ 63
  ∧ ∃ st, run crc_32 (Z.of_nat 8)
            [main_thread try_ok; main_thread try_ok; main_thread (throws bad_alloc)]
            (init sample) = Some st
      ∧ pc st = at_drain ∧ length (tp st) = 1%nat
      ∧ ∃ turns st', (length turns ≤ 2)%nat
          ∧ run crc_32 (Z.of_nat 8)
              (replicate (length (tp st)) (worker_thread 0) ++ turns) st = Some st'
          ∧ pc st' = at_done.
Proof.
  split; [lia|]. split; [exact sample_length|].
  assert (Hrun : ∃ st, run crc_32 (Z.of_nat 8)
            [main_thread try_ok; main_thread try_ok; main_thread (throws bad_alloc)]
            (init sample) = Some st ∧ pc st = at_drain ∧ length (tp st) = 1%nat)
    by (vm_compute; eexists; repeat split; reflexivity).
  destruct Hrun as (st & Hrun & Hpc & Hlen).
  exists st. split; [exact Hrun|]. split; [exact Hpc|]. split; [exact Hlen|].
  destruct (drain_loop_ends crc_32 8 sample _ st ltac:(lia) sample_length Hrun Hpc)
    as (turns & st' & Hturns & _ & Hrun' & Hpc' & _).
  exists turns, st'. split; [exact Hturns|]. split; [exact Hrun'|exact Hpc'].
Defined.

(** ** The version that retries *)

Lemma run_retry_app checksum block_size_value t1 t2 st :
  run_retry checksum block_size_value (t1 ++ t2) st
    = run_retry checksum block_size_value t1 st
        ≫= run_retry checksum block_size_value t2.
Proof.
  revert st. induction t1 as [|e t1 IH]; intros st; simpl; [done|].
  destruct (exec_retry checksum block_size_value e st); simpl; [apply IH|done].
Qed.

Lemma crc_saver_loop_eofbit fuel : ∀ st st',
  crc_saver_loop fuel st = Some st' → eofbit st' = eofbit st ∧ pc st' = pc st.
Proof.
  induction fuel as [|fuel IH]; intros st st' Hloop; [done|].
  simpl in Hloop.
  destruct (block_crc_map st !! last_processed_block_id st) as [crc|].
  - by apply IH in Hloop.
  - by injection Hloop as <-.
Qed.

(** The drain loop of that version is entered at the end of the input only. *)
Lemma exec_retry_ended checksum block_size_value e st st' :
  (pc st = at_drain ∨ pc st = at_done → eofbit st = true) →
  exec_retry checksum block_size_value e st = Some st' →
  pc st' = at_drain ∨ pc st' = at_done → eofbit st' = true.
Proof.
  intros Hended Hexec. unfold exec_retry, exec_with in Hexec.
  destruct e as [r|j].
  - destruct (pc st) eqn:Hpc; try done.
    + destruct (eofbit st) eqn:Heof.
      * by injection Hexec as <-.
      * injection Hexec as <-. destruct r as [|[|w]]; simpl.
        -- by intros [?|?].
        -- rewrite Hpc. by intros [?|?].
        -- by intros [?|?].
    + case_decide.
      * destruct (crc_saver st) as [st1|]; [|done]. injection Hexec as <-.
        by intros [?|?].
      * injection Hexec as <-. by intros [?|?].
    + case_decide.
      * unfold crc_saver in Hexec. apply crc_saver_loop_eofbit in Hexec as [-> _].
        intros _. simpl. apply Hended. by left.
      * injection Hexec as <-. intros _. simpl. apply Hended. by left.
  - destruct (tp st !! j) as [t|]; [|done]. injection Hexec as <-.
    exact Hended.
Qed.

Section Retry.

Variable checksum : list byte → Z.
Variable bs : nat.
Variable input : list byte.
Hypothesis Hbs : (0 < bs)%nat.
Hypothesis Hlen : Z.of_nat (length input) < 2 ^ 63.

Local Abbreviation Kept' := (Kept checksum bs input).
Local Abbreviation Inv' := (Inv checksum bs input).
Local Abbreviation exec_retry' := (exec_retry checksum (Z.of_nat bs)).
Local Abbreviation run_retry' := (run_retry checksum (Z.of_nat bs)).

Lemma run_retry_kept trace : ∀ k c st st',
  Kept' k c st →
  (pc st = at_drain ∨ pc st = at_done → eofbit st = true) →
  run_retry' trace st = Some st' →
  ∃ k' c', Kept' k' c' st'
    ∧ (pc st' = at_drain ∨ pc st' = at_done → eofbit st' = true).
Proof.
  induction trace as [|e trace IH]; intros k c st st' HK Hended Hrun.
  - injection Hrun as <-. eauto.
  - simpl in Hrun.
    destruct (exec_retry' e st) as [st1|] eqn:He; [|done].
    destruct (exec_retry_kept checksum bs input Hbs Hlen _ _ _ _ _ HK He)
      as (k1 & c1 & HK1 & _).
    apply (IH k1 c1 st1 st' HK1); [|done].
    by apply (exec_retry_ended checksum (Z.of_nat bs) e st).
Qed.

(** Without exceptions a step of this version is a step of
    [source/signature.cpp]. *)
Lemma exec_retry_exec k c st e :
  Inv' k c st → no_throw e → exec_retry' e st = exec checksum (Z.of_nat bs) e st.
Proof.
  intros HI He. unfold exec_retry, exec, exec_with.
  destruct e as [[|e]|j]; [done|done|].
  destruct (tp st !! j) as [t|] eqn:Hj; [|done]. f_equal.
  destruct (run_task_inv checksum bs input Hbs k c st j t HI Hj) as (_ & Hnone & _).
  unfold run_task_retry, run_task, map_insert. simpl. by rewrite Hnone.
Qed.

Lemma exec_retry_inv k c st e st' :
  Inv' k c st → no_other_exception e → exec_retry' e st = Some st' →
  ∃ k' c', Inv' k' c' st'.
Proof.
  intros HI He Hexec.
  assert (e = main_thread (throws bad_alloc) ∨ no_throw e) as [->|Hnt].
  { destruct e as [[|[|w]]|j]; simpl; eauto. }
  - unfold exec_retry, exec_with in Hexec.
    destruct (pc st) eqn:Hpc; try done.
    + destruct (eofbit st) eqn:Heof.
      * assert (Hex : exec checksum (Z.of_nat bs) (main_thread try_ok) st = Some st').
        { unfold exec, exec_with. by rewrite Hpc, Heof. }
        destruct (exec_inv checksum bs input Hbs Hlen k c st (main_thread try_ok) st' HI I Hex)
          as (k' & c' & HI' & _). eauto.
      * injection Hexec as <-. exists k, c. by apply sleep_for_inv.
    + assert (Hex : exec checksum (Z.of_nat bs) (main_thread try_ok) st = Some st').
      { unfold exec, exec_with. by rewrite Hpc. }
      destruct (exec_inv checksum bs input Hbs Hlen k c st (main_thread try_ok) st' HI I Hex)
        as (k' & c' & HI' & _). eauto.
    + assert (Hex : exec checksum (Z.of_nat bs) (main_thread try_ok) st = Some st').
      { unfold exec, exec_with. by rewrite Hpc. }
      destruct (exec_inv checksum bs input Hbs Hlen k c st (main_thread try_ok) st' HI I Hex)
        as (k' & c' & HI' & _). eauto.
  - rewrite (exec_retry_exec k c st e HI Hnt) in Hexec.
    destruct (exec_inv checksum bs input Hbs Hlen k c st e st' HI Hnt Hexec)
      as (k' & c' & HI' & _). eauto.
Qed.

Lemma run_retry_inv trace : ∀ k c st st',
  Inv' k c st → Forall no_other_exception trace → run_retry' trace st = Some st' →
  ∃ k' c', Inv' k' c' st'.
Proof.
  induction trace as [|e trace IH]; intros k c st st' HI Hnt Hrun.
  - injection Hrun as <-. eauto.
  - simpl in Hrun. apply Forall_cons in Hnt as [He Hnt].
    destruct (exec_retry' e st) as [st1|] eqn:He1; [|done].
    destruct (exec_retry_inv _ _ _ _ _ HI He He1) as (k1 & c1 & HI1).
    by apply (IH k1 c1 st1 st' HI1).
Qed.

Lemma run_retry_of_run trace : ∀ k c st st',
  Inv' k c st → Forall no_throw trace →
  run checksum (Z.of_nat bs) trace st = Some st' → run_retry' trace st = Some st'.
Proof.
  induction trace as [|e trace IH]; intros k c st st' HI Hnt Hrun; [done|].
  simpl in *. apply Forall_cons in Hnt as [He Hnt].
  rewrite (exec_retry_exec k c st e HI He).
  destruct (exec checksum (Z.of_nat bs) e st) as [st1|] eqn:He1; [|done].
  destruct (exec_inv checksum bs input Hbs Hlen k c st e st1 HI He He1)
    as (k1 & c1 & HI1 & _).
  by apply (IH k1 c1 st1 st' HI1).
Qed.

End Retry.

Lemma retried_twice_runs :
  (λ st, (pc st, output_file_stream st, slept_ms st, std_err st))
    <$> run_retry crc_32 (Z.of_nat 8) retried_twice (init sample)
  = Some (at_done, crc_32 <$> blocks 8 sample, 30, []).
Proof. vm_compute. reflexivity. Qed.

(** X10. In the version that retries, whatever exceptions occur, the output
    is at every moment the checksums of the first blocks of the input in
    order, and when [main] is past its drain loop it holds the checksum of
    every block and no task is left: the drain loop is only reached at the
    end of the input. After [return EXIT_FAILURE] the main thread takes no
    step. *)
Theorem retry_output_is_complete checksum bs input trace st :
  (0 < bs)%nat → Z.of_nat (length input) < 2 ^ 63 →
  run_retry checksum (Z.of_nat bs) trace (init input) = Some st →
  (∃ c, output_file_stream st = checksum <$> take c (blocks bs input))
  ∧ (pc st = at_done →
       output_file_stream st = checksum <$> blocks bs input ∧ tp st = [])
  ∧ (pc st = at_exit_failure →
       ∀ r, exec_retry checksum (Z.of_nat bs) (main_thread r) st = None).
Proof.
  intros Hbs Hlen Hrun.
  destruct (run_retry_kept checksum bs input Hbs Hlen trace 0 0 (init input) st)
    as (k & c & HK & Hended);
    [by apply kept_init|by intros [?|?]|done|].
  destruct (kept_facts checksum bs input Hbs Hlen k c st HK)
    as (_ & _ & Hle & Hout & Hdone).
  split; [eauto|]. split.
  - intros Hpc. destruct (Hdone Hpc) as [-> Htp]. split; [|done].
    rewrite Hout. f_equal. apply take_ge.
    assert (Hk : k = reads bs input).
    { destruct HK as [[] _ _ _]. simpl in *.
      rewrite Hended in inv_eof0 by (by right).
      symmetry in inv_eof0. by apply bool_decide_eq_true in inv_eof0. }
    unfold blocks. rewrite length_fmap, length_seq. lia.
  - intros Hpc r. unfold exec_retry, exec_with. by rewrite Hpc.
Qed.

Lemma retry_output_is_complete_witness :
  (0 < 8)%nat ∧ Z.of_nat (length sample) < 2 ^ 63
  ∧ ∃ st, run_retry crc_32 (Z.of_nat 8) retried_twice (init sample) = Some st
      ∧ pc st = at_done
      ∧ output_file_stream st = crc_32 <$> blocks 8 sample.
Proof.
  split; [lia|]. split; [exact sample_length|].
  pose proof retried_twice_runs as Hrun.
  destruct (run_retry crc_32 (Z.of_nat 8) retried_twice (init sample))
    as [st|] eqn:Hst; [|discriminate Hrun].
  injection Hrun as Hpc _ _ _.
  exists st. split; [reflexivity|]. split; [exact Hpc|].
  destruct (retry_output_is_complete crc_32 8 sample retried_twice st
              ltac:(lia) sample_length Hst) as (_ & Hdone & _).
  exact (proj1 (Hdone Hpc)).
Defined.

(** X11. In the version that retries, as long as the only exceptions are
    [bad_alloc], nothing is written to standard error, [main] has not
    returned a failure, and the run can be continued without further
    exceptions to the end of [main], where by X10 the output is complete:
    a failed allocation costs a sleep and nothing else. *)
Theorem retry_runs_can_finish checksum bs input trace st :
  (0 < bs)%nat → Z.of_nat (length input) < 2 ^ 63 →
  Forall no_other_exception trace →
  run_retry checksum (Z.of_nat bs) trace (init input) = Some st →
  std_err st = [] ∧ pc st ≠ at_exit_failure
  ∧ ∃ more st', Forall no_throw more
      ∧ run_retry checksum (Z.of_nat bs) (trace ++ more) (init input) = Some st'
      ∧ pc st' = at_done.
Proof.
  intros Hbs Hlen Hnt Hrun.
  destruct (run_retry_inv checksum bs input Hbs Hlen trace 0 0 (init input) st)
    as (k & c & HI); [by apply inv_init|done|done|].
  split; [by destruct HI|]. split; [by destruct HI|].
  destruct (can_finish checksum bs input Hbs Hlen k c st HI)
    as (more & st' & Hnt' & Hrun' & Hpc').
  exists more, st'. split; [done|]. split; [|done].
  rewrite run_retry_app, Hrun. simpl.
  by apply (run_retry_of_run checksum bs input Hbs Hlen more k c st st').
Qed.

Lemma retry_runs_can_finish_witness :
  (0 < 8)%nat ∧ Z.of_nat (length sample) < 2 ^ 63
  ∧ Forall no_other_exception (take 4 retried_twice)
  ∧ ∃ st, run_retry crc_32 (Z.of_nat 8) (take 4 retried_twice) (init sample) = Some st
      ∧ slept_ms st = 20 ∧ std_err st = [].
Proof.
  assert (Hnt : Forall no_other_exception (take 4 retried_twice))
    by (repeat constructor).
  split; [lia|]. split; [exact sample_length|]. split; [exact Hnt|].
  assert (Hrun : ∃ st,
      run_retry crc_32 (Z.of_nat 8) (take 4 retried_twice) (init sample) = Some st
      ∧ slept_ms st = 20)
    by (vm_compute; eexists; split; reflexivity).
  destruct Hrun as (st & Hrun & Hslept).
  exists st. split; [exact Hrun|]. split; [exact Hslept|].
  exact (proj1 (retry_runs_can_finish crc_32 8 sample _ st
                  ltac:(lia) sample_length Hnt Hrun)).
Defined.

(** ** The insert of a task, in both versions *)



(** ** When the output is written *)

Lemma exec_batch checksum block_size_value e st st' :
  (pc st = at_loop_head ∨ pc st = at_check → output_file_stream st ≠ [] →
     BLOCK_CRC_MAP_PROCESSING_SIZE ≤ Z.of_nat (size (block_crc_map st))) →
  exec checksum block_size_value e st = Some st' →
  pc st' = at_loop_head ∨ pc st' = at_check → output_file_stream st' ≠ [] →
  BLOCK_CRC_MAP_PROCESSING_SIZE ≤ Z.of_nat (size (block_crc_map st')).
Proof.
  intros HQ Hexec. unfold exec, exec_with in Hexec.
  destruct e as [r|j].
  - destruct (pc st) eqn:Hpc; try done.
    + destruct (eofbit st).
      * injection Hexec as <-. by intros [?|?].
      * injection Hexec as <-. destruct r as [|e]; simpl.
        -- unfold read_block, istream_read. simpl. intros _. apply HQ. by left.
        -- by intros [?|?].
    + case_decide as Hsize.
      * unfold crc_saver in Hexec.
        destruct (crc_saver_loop _ st) as [st1|] eqn:Hloop; [|done].
        injection Hexec as <-. simpl.
        apply crc_saver_loop_keeps in Hloop as (_ & _ & -> & _). done.
      * injection Hexec as <-. simpl. intros _. apply HQ. by right.
    + case_decide.
      * unfold crc_saver in Hexec.
        apply crc_saver_loop_keeps in Hexec as (_ & _ & _ & _ & ->).
        simpl. rewrite Hpc. by intros [?|?].
      * injection Hexec as <-. by intros [?|?].
  - destruct (tp st !! j) as [t|]; [|done]. injection Hexec as <-.
    unfold run_task, map_insert. simpl.
    destruct (block_crc_map st !! task.block_counter t) eqn:E; simpl; [done|].
    intros Hpc Hout. specialize (HQ Hpc Hout).
    rewrite map_size_insert_None by done. lia.
Qed.

Lemma run_batch checksum block_size_value trace : ∀ st st',
  (pc st = at_loop_head ∨ pc st = at_check → output_file_stream st ≠ [] →
     BLOCK_CRC_MAP_PROCESSING_SIZE ≤ Z.of_nat (size (block_crc_map st))) →
  run checksum block_size_value trace st = Some st' →
  pc st' = at_loop_head ∨ pc st' = at_check → output_file_stream st' ≠ [] →
  BLOCK_CRC_MAP_PROCESSING_SIZE ≤ Z.of_nat (size (block_crc_map st')).
Proof.
  induction trace as [|e trace IH]; intros st st' HQ Hrun.
  - by injection Hrun as <-.
  - simpl in Hrun.
    destruct (exec checksum block_size_value e st) as [st1|] eqn:He; [|done].
    apply (IH st1 st'); [|done]. exact (exec_batch checksum block_size_value e st st1 HQ He).
Qed.

(** X12. While [main] is in its read loop nothing has been written to the
    output unless the map holds 100 records or more. For an input of fewer
    than 99 blocks the output therefore stays empty until the whole input
    has been read: all of it is written by the drain loop. This holds with
    or without exceptions. *)
Theorem output_waits_for_100_records checksum bs input trace st :
  (0 < bs)%nat → Z.of_nat (length input) < 2 ^ 63 →
  run checksum (Z.of_nat bs) trace (init input) = Some st →
  pc st = at_loop_head ∨ pc st = at_check →
  (output_file_stream st ≠ [] →
     BLOCK_CRC_MAP_PROCESSING_SIZE ≤ Z.of_nat (size (block_crc_map st)))
  ∧ ((length input < 99 * bs)%nat → output_file_stream st = []).
Proof.
  intros Hbs Hlen Hrun Hpc.
  assert (HQ : output_file_stream st ≠ [] →
               BLOCK_CRC_MAP_PROCESSING_SIZE ≤ Z.of_nat (size (block_crc_map st))).
  { apply (run_batch checksum (Z.of_nat bs) trace (init input) st); [|done..].
    simpl. done. }
  split; [done|]. intros Hshort.
  destruct (reachable_kept checksum bs input Hbs Hlen trace st Hrun) as (k & c & HK).
  destruct (kept_facts checksum bs input Hbs Hlen k c st HK) as (_ & _ & Hle & _).
  destruct HK as [_ _ _ Hcount].
  assert (Hreads : (reads bs input < 100)%nat).
  { unfold reads.
    assert (length input / bs < 99)%nat by (apply Nat.Div0.div_lt_upper_bound; lia).
    lia. }
  destruct (output_file_stream st) as [|crc out]; [done|].
  specialize (HQ ltac:(done)). unfold BLOCK_CRC_MAP_PROCESSING_SIZE in HQ. lia.
Qed.

Lemma output_waits_for_100_records_witness :
  (0 < 8)%nat ∧ Z.of_nat (length sample) < 2 ^ 63
  ∧ (length sample < 99 * 8)%nat
  ∧ ∃ st, run crc_32 (Z.of_nat 8)
            [main_thread try_ok; worker_thread 0; main_thread try_ok] (init sample)
          = Some st
      ∧ size (block_crc_map st) = 1%nat
      ∧ output_file_stream st = [].
Proof.
  split; [lia|]. split; [exact sample_length|].
  assert (Hshort : (length sample < 99 * 8)%nat) by (vm_compute; lia).
  split; [exact Hshort|].
  assert (Hrun : ∃ st, run crc_32 (Z.of_nat 8)
            [main_thread try_ok; worker_thread 0; main_thread try_ok] (init sample)
          = Some st ∧ size (block_crc_map st) = 1%nat
            ∧ (pc st = at_loop_head ∨ pc st = at_check))
    by (vm_compute; eexists; split; [reflexivity|split; [reflexivity|by left]]).
  destruct Hrun as (st & Hrun & Hsize & Hpc).
  exists st. split; [exact Hrun|]. split; [exact Hsize|].
  exact (proj2 (output_waits_for_100_records crc_32 8 sample _ st
                  ltac:(lia) sample_length Hrun Hpc) Hshort).
Defined.

(** ** From the options to the output file *)

(** X13. With a block size that is the default or came through [validate],
    paths that differ and lead to two files, an input file that exists and
    an output that can be opened, [main] gets to its loop with the contents
    of the input file and a block size of at least 1024; the input file is
    left as it was; and when the run is past the drain loop without an
    exception, the records written are the checksums of the blocks of the
    input file, in order, and after them the checksum of no bytes when the
    input ends where a block ends. *)
Theorem main_end_to_end checksum resolve argc inp out bsv fs writable input trace st :
  bsv = BlockSize.from_number BlockSize.BLOCK_SIZE_MEGABYTE
  ∨ (∃ s, BlockSize.validate s = Returns (BlockSize.value_stored bsv)) →
  argc ≠ 1 → inp ≠ out → resolve inp ≠ resolve out →
  fs !! resolve inp = Some input → writable out = true →
  Z.of_nat (length input) < 2 ^ 63 →
  let r := main_checks_at resolve argc (parsed false inp out bsv) fs writable in
  let bs := Z.to_nat (BlockSize.get bsv) in
  result r = streams_open input out (BlockSize.get bsv)
  ∧ 1024 ≤ BlockSize.get bsv
  ∧ files r !! resolve inp = Some input ∧ files r !! resolve out = Some []
  ∧ (Forall no_throw trace →
     run checksum (BlockSize.get bsv) trace (init input) = Some st →
     pc st = at_done →
     output_file_stream st
       = (checksum <$> input_blocks bs input)
           ++ (checksum <$> read_past_the_end bs input)).
Proof.
  intros Hbsv Hargc Hne Hfiles Hin Hw Hlen. simpl.
  rewrite bool_decide_eq_false_2 by done. simpl.
  rewrite decide_False by done. rewrite Hin, Hw. simpl.
  assert (Hget : 1024 ≤ BlockSize.get bsv).
  { destruct Hbsv as [->|[s Hs]]; [by vm_compute|].
    destruct (validate_stored s bsv Hs) as (_ & _ & _ & _ & _ & _ & _ & _ & ? & _).
    done. }
  rewrite lookup_insert_ne, Hin by done. simpl.
  split; [done|]. split; [done|].
  split; [done|]. split; [by rewrite lookup_insert_eq|].
  intros Hnt Hrun Hpc.
  rewrite <- fmap_app, <- blocks_input_blocks by lia.
  apply (done_output checksum (Z.to_nat (BlockSize.get bsv)) input
           ltac:(lia) Hlen trace st Hnt); [|done].
  by rewrite Z2Nat.id by lia.
Qed.

Lemma main_end_to_end_witness :
  ∃ bsv st,
    BlockSize.validate "1K" = Returns (BlockSize.value_stored bsv)
    ∧ BlockSize.get bsv = 1024
    ∧ result (main_checks_at (λ path, path) 7 (parsed false "in" "out" bsv)
                {["in" := sample]} (λ _, true))
      = streams_open sample "out" (BlockSize.get bsv)
    ∧ run crc_32 (BlockSize.get bsv) (in_turn 1) (init sample) = Some st
    ∧ pc st = at_done
    ∧ output_file_stream st
      = (crc_32 <$> input_blocks (Z.to_nat (BlockSize.get bsv)) sample)
          ++ (crc_32 <$> read_past_the_end (Z.to_nat (BlockSize.get bsv)) sample).
Proof.
  assert (Hv : ∃ bsv, BlockSize.validate "1K" = Returns (BlockSize.value_stored bsv)
                      ∧ BlockSize.get bsv = 1024)
    by (eexists; split; reflexivity).
  destruct Hv as (bsv & Hv & Hget).
  assert (Hrun : ∃ st, run crc_32 1024 (in_turn 1) (init sample) = Some st
                       ∧ pc st = at_done)
    by (vm_compute; eexists; split; reflexivity).
  destruct Hrun as (st & Hrun & Hpc).
  rewrite <- Hget in Hrun.
  assert (Hnt : Forall no_throw (in_turn 1)) by (repeat constructor).
  destruct (main_end_to_end crc_32 (λ path, path) 7 "in" "out" bsv
              {["in" := sample]} (λ _, true)
              sample (in_turn 1) st
              (or_intror (ex_intro _ "1K" Hv)) ltac:(lia) ltac:(discriminate)
              ltac:(discriminate) ltac:(reflexivity) eq_refl sample_length)
    as (Hres & _ & _ & _ & Hfile).
  exists bsv, st. split; [exact Hv|]. split; [exact Hget|].
  split; [exact Hres|]. split; [exact Hrun|]. split; [exact Hpc|].
  exact (Hfile Hnt Hrun Hpc).
Defined.

(** ** What a run never undoes *)

Lemma exec_map_grows checksum bs input k c st e st' :
  (0 < bs)%nat → Z.of_nat (length input) < 2 ^ 63 →
  Kept checksum bs input k c st →
  exec checksum (Z.of_nat bs) e st = Some st' →
  block_crc_map st ⊆ block_crc_map st'.
Proof.
  intros Hbs Hlen HK Hexec. unfold exec, exec_with in Hexec.
  destruct e as [r|j].
  - destruct (pc st) eqn:Hpc; try done.
    + destruct (eofbit st).
      * by injection Hexec as <-.
      * injection Hexec as <-. by destruct r.
    + case_decide.
      * unfold crc_saver in Hexec.
        destruct (crc_saver_loop _ st) as [st1|] eqn:Hloop; [|done].
        injection Hexec as <-. simpl.
        apply crc_saver_loop_keeps in Hloop as (_ & _ & -> & _). done.
      * by injection Hexec as <-.
    + case_decide.
      * unfold crc_saver in Hexec.
        apply crc_saver_loop_keeps in Hexec as (_ & _ & -> & _). done.
      * by injection Hexec as <-.
  - destruct (tp st !! j) as [t|] eqn:Hj; [|done]. injection Hexec as <-.
    destruct (kept_task checksum bs input Hbs k c st j t HK Hj) as (_ & Hnone & _).
    unfold run_task, map_insert. simpl. rewrite Hnone. simpl.
    by apply insert_subseteq.
Qed.

Lemma run_map_grows checksum bs input trace : ∀ k c st st',
  (0 < bs)%nat → Z.of_nat (length input) < 2 ^ 63 →
  Kept checksum bs input k c st →
  run checksum (Z.of_nat bs) trace st = Some st' →
  block_crc_map st ⊆ block_crc_map st'.
Proof.
  induction trace as [|e trace IH]; intros k c st st' Hbs Hlen HK Hrun.
  - by injection Hrun as <-.
  - simpl in Hrun.
    destruct (exec checksum (Z.of_nat bs) e st) as [st1|] eqn:He; [|done].
    destruct (exec_kept checksum bs input Hbs Hlen k c st e st1 HK He)
      as (k1 & c1 & HK1 & _).
    etrans; [by eapply exec_map_grows|]. by eapply IH.
Qed.

(** X14. No step of a run undoes what an earlier one did: the output is only
    appended to, [block_counter] and [last_processed_block_id] never go
    back, and the map only gains records; none is removed or replaced, so
    the map ends with one record for each block read. *)
Theorem a_run_only_adds checksum bs input trace more st st' :
  (0 < bs)%nat → Z.of_nat (length input) < 2 ^ 63 →
  run checksum (Z.of_nat bs) trace (init input) = Some st →
  run checksum (Z.of_nat bs) more st = Some st' →
  output_file_stream st `prefix_of` output_file_stream st'
  ∧ block_counter st ≤ block_counter st'
  ∧ last_processed_block_id st ≤ last_processed_block_id st'
  ∧ block_crc_map st ⊆ block_crc_map st'
  ∧ (pc st' = at_done → Z.of_nat (size (block_crc_map st')) = block_counter st').
Proof.
  intros Hbs Hlen Hrun Hmore.
  destruct (reachable_kept checksum bs input Hbs Hlen trace st Hrun) as (k & c & HK).
  destruct (run_kept checksum bs input Hbs Hlen more k c st st' HK Hmore)
    as (k' & c' & HK' & Hk & Hc).
  destruct (kept_facts checksum bs input Hbs Hlen k c st HK) as (-> & -> & _ & -> & _).
  destruct (kept_facts checksum bs input Hbs Hlen k' c' st' HK')
    as (-> & -> & _ & -> & Hdone).
  split; [|split; [lia|split; [lia|split]]].
  - replace c' with (c + (c' - c))%nat by lia.
    rewrite <- take_take_drop, fmap_app. by apply prefix_app_r.
  - by apply (run_map_grows checksum bs input more k c).
  - intros Hpc. destruct (Hdone Hpc) as [_ Htp].
    destruct HK' as [_ _ _ Hcount]. rewrite Htp in Hcount. simpl in Hcount. lia.
Qed.

Lemma a_run_only_adds_witness :
  (0 < 8)%nat ∧ Z.of_nat (length sample) < 2 ^ 63
  ∧ ∃ st st', run crc_32 (Z.of_nat 8) (take 10 last_one_first) (init sample) = Some st
      ∧ run crc_32 (Z.of_nat 8) (drop 10 last_one_first) st = Some st'
      ∧ output_file_stream st `prefix_of` output_file_stream st'
      ∧ block_crc_map st ⊆ block_crc_map st'.
Proof.
  split; [lia|]. split; [exact sample_length|].
  destruct last_one_first_runs as (st' & Hall & _).
  change 8 with (Z.of_nat 8) in Hall.
  rewrite <- (take_drop 10 last_one_first), run_app in Hall.
  destruct (run crc_32 (Z.of_nat 8) (take 10 last_one_first) (init sample))
    as [st|] eqn:Hrun; [|discriminate Hall].
  change (run crc_32 (Z.of_nat 8) (drop 10 last_one_first) st = Some st') in Hall.
  rename Hall into Hmore.
  exists st, st'. split; [reflexivity|]. split; [exact Hmore|].
  destruct (a_run_only_adds crc_32 8 sample _ _ st st'
              ltac:(lia) sample_length Hrun Hmore) as (Hout & _ & _ & Hmap & _).
  split; [exact Hout|exact Hmap].
Defined.

(** ** The size check in a run, and the records that wait *)

Lemma run_step checksum block_size_value e trace st st1 :
  exec checksum block_size_value e st = Some st1 →
  run checksum block_size_value (e :: trace) st
    = run checksum block_size_value trace st1.
Proof. intros He. simpl. by rewrite He. Qed.

Lemma exec_read checksum block_size_value st :
  pc st = at_loop_head → eofbit st = false →
  exec checksum block_size_value (main_thread try_ok) st
    = Some (read_block block_size_value st).
Proof. intros Hpc Heof. unfold exec, exec_with. by rewrite Hpc, Heof. Qed.

(** At the size check nothing is written while the record under
    [last_processed_block_id] is missing, whatever the size of the map. *)
Lemma exec_check_gap checksum block_size_value r st :
  pc st = at_check →
  block_crc_map st !! last_processed_block_id st = None →
  exec checksum block_size_value (main_thread r) st = Some (with_pc at_loop_head st).
Proof.
  intros Hpc Hgap. unfold exec, exec_with. rewrite Hpc.
  case_decide; [|done]. unfold crc_saver. simpl. by rewrite Hgap.
Qed.

(** C5, as amended. In every run, with or without exceptions, when the main
    thread stands at the size check that ends the loop body and the map
    holds 100 entries or more, written or not, its next step is the call of
    [crc_saver], which returns: it writes the records under
    [last_processed_block_id] and the ids that follow for as long as there
    is one, and stops at the first id that is missing; only then is the main
    thread back at the loop head. With fewer entries it goes back at once.
    No step taken at the check reads the input, moves [block_counter] or
    adds a task, and only the main thread leaves the check. *)
Theorem size_check_runs_crc_saver checksum bs input trace st :
  (0 < bs)%nat → Z.of_nat (length input) < 2 ^ 63 →
  run checksum (Z.of_nat bs) trace (init input) = Some st →
  pc st = at_check →
  (BLOCK_CRC_MAP_PROCESSING_SIZE ≤ Z.of_nat (size (block_crc_map st)) →
     ∃ n : nat,
       crc_saver st = Some (after_saving n st)
       ∧ (∀ r, exec checksum (Z.of_nat bs) (main_thread r) st
               = Some (with_pc at_loop_head (after_saving n st)))
       ∧ (∀ i : nat, (i < n)%nat →
            is_Some (block_crc_map st !! (last_processed_block_id st + Z.of_nat i)))
       ∧ block_crc_map st !! (last_processed_block_id st + Z.of_nat n) = None
       ∧ length (output_file_stream (after_saving n st))
         = (length (output_file_stream st) + n)%nat)
  ∧ (Z.of_nat (size (block_crc_map st)) < BLOCK_CRC_MAP_PROCESSING_SIZE →
       ∀ r, exec checksum (Z.of_nat bs) (main_thread r) st
            = Some (with_pc at_loop_head st))
  ∧ (∀ e st', exec checksum (Z.of_nat bs) e st = Some st' →
       input_file st' = input_file st ∧ block_counter st' = block_counter st
       ∧ (length (tp st') ≤ length (tp st))%nat
       ∧ (pc st' = at_loop_head → ∃ r, e = main_thread r)).
Proof.
  intros Hbs Hlen Hrun Hpc.
  destruct (reachable_kept checksum bs input Hbs Hlen trace st Hrun) as (k & c & HK).
  destruct (kept_crc_saver checksum bs input Hbs Hlen k c st HK)
    as (n & Hres & HK1 & Hgap).
  destruct (kept_facts checksum bs input Hbs Hlen k c st HK) as (_ & Hc & _).
  split; [|split].
  - intros Hsize. exists n. split; [done|]. split; [|split; [|split]].
    + intros r. unfold exec, exec_with. by rewrite Hpc, decide_True, Hres.
    + intros i Hi. rewrite Hc.
      replace (Z.of_nat c + Z.of_nat i) with (Z.of_nat (c + i)) by lia.
      destruct HK1 as [_ _ Hwritten _]. apply (Hwritten (c + i)%nat). lia.
    + rewrite Hc. by replace (Z.of_nat c + Z.of_nat n) with (Z.of_nat (c + n)) by lia.
    + simpl. unfold run_values. by rewrite length_app, length_fmap, length_seq.
  - intros Hsize r. unfold exec, exec_with. rewrite Hpc, decide_False by lia. done.
  - intros [r|j] st' Hexec.
    + unfold exec, exec_with in Hexec. rewrite Hpc in Hexec. case_decide.
      * rewrite Hres in Hexec. injection Hexec as <-. simpl. eauto.
      * injection Hexec as <-. simpl. eauto.
    + unfold exec, exec_with in Hexec.
      destruct (tp st !! j) as [t|] eqn:Hj; [|done]. injection Hexec as <-.
      assert (Hlen' : (length (delete j (tp st)) ≤ length (tp st))%nat).
      { rewrite length_delete by eauto. lia. }
      unfold run_task, map_insert. simpl.
      destruct (block_crc_map st !! task.block_counter t); simpl;
        rewrite Hpc; done.
Qed.

Lemma zero_blocks_length bs m :
  length (zero_blocks bs m) = (m * bs)%nat.
Proof. unfold zero_blocks. by rewrite length_replicate. Qed.

Lemma size_check_runs_crc_saver_witness :
  (0 < 1024)%nat ∧ Z.of_nat (length (zero_blocks 1024 100)) < 2 ^ 63
  ∧ ∃ st, run byte_count (Z.of_nat 1024) hundred_reads (init (zero_blocks 1024 100))
          = Some st
      ∧ pc st = at_check
      ∧ BLOCK_CRC_MAP_PROCESSING_SIZE ≤ Z.of_nat (size (block_crc_map st))
      ∧ ∃ n : nat,
          exec byte_count (Z.of_nat 1024) (main_thread try_ok) st
            = Some (with_pc at_loop_head (after_saving n st))
          ∧ block_crc_map st !! (last_processed_block_id st + Z.of_nat n) = None.
Proof.
  assert (Hlen : Z.of_nat (length (zero_blocks 1024 100)) < 2 ^ 63)
    by (rewrite zero_blocks_length; lia).
  split; [lia|]. split; [exact Hlen|].
  assert (Hrun : ∃ st,
            run byte_count (Z.of_nat 1024) hundred_reads (init (zero_blocks 1024 100))
              = Some st
            ∧ pc st = at_check
            ∧ BLOCK_CRC_MAP_PROCESSING_SIZE ≤ Z.of_nat (size (block_crc_map st))).
  { vm_compute. eexists. split; [reflexivity|]. split; [reflexivity|discriminate]. }
  destruct Hrun as (st & Hrun & Hpc & Hsize).
  exists st. split; [exact Hrun|]. split; [exact Hpc|]. split; [exact Hsize|].
  destruct (size_check_runs_crc_saver byte_count 1024 (zero_blocks 1024 100)
              hundred_reads st ltac:(lia) Hlen Hrun Hpc) as (Hfull & _).
  destruct (Hfull Hsize) as (n & _ & Hexec & _ & Hgap & _).
  exists n. split; [exact (Hexec try_ok)|exact Hgap].
Defined.

(** With a hundred records in the map, all of them in turn, the check writes
    the hundred. *)
Example hundred_records_written :
  (λ st, (pc st, last_processed_block_id st, length (output_file_stream st),
          size (block_crc_map st)))
    <$> run byte_count 1024 (hundred_reads ++ [main_thread try_ok])
          (init (zero_blocks 1024 100))
  = Some (at_loop_head, 100, 100%nat, 100%nat).
Proof. vm_compute. reflexivity. Qed.

(** The records waiting to be written grow with the input when the first
    task is slow, at any block size. *)
Section Stuck.

Variable checksum : list byte → Z.
Variables bs n : nat.
Hypothesis Hbs : (0 < bs)%nat.
Hypothesis Hn : Z.of_nat (n * bs) < 2 ^ 63.

Local Abbreviation run' := (run checksum (Z.of_nat bs)).

Lemma read_zero_block st m :
  input_file st = zero_blocks bs (S m) →
  read_block (Z.of_nat bs) st =
    {| input_file := zero_blocks bs m; eofbit := false;
       block_counter := wrap64 (block_counter st + 1);
       last_processed_block_id := last_processed_block_id st;
       block_crc_map := block_crc_map st;
       output_file_stream := output_file_stream st;
       tp := tp st ++ [task.mk (replicate bs "000"%byte) (Z.of_nat bs)
                         (block_counter st)];
       std_err := std_err st; slept_ms := slept_ms st; pc := at_check |}.
Proof.
  intros Hin. unfold read_block, istream_read. rewrite Nat2Z.id, Hin.
  unfold zero_blocks.
  rewrite take_replicate, drop_replicate, !length_replicate.
  replace (bs `min` (S m * bs))%nat with bs by lia.
  replace (bs - bs)%nat with 0%nat by lia.
  replace (S m * bs - bs)%nat with (m * bs)%nat by lia.
  rewrite bool_decide_eq_false_2 by lia.
  simpl replicate at 2. by rewrite app_nil_r.
Qed.

Lemma stuck_first :
  (1 ≤ n)%nat →
  ∃ st, run' [main_thread try_ok; main_thread try_ok] (init (zero_blocks bs n))
        = Some st
    ∧ Stuck bs n 1 st.
Proof.
  intros H1.
  assert (Hin : input_file (init (zero_blocks bs n)) = zero_blocks bs (S (n - 1))).
  { simpl. f_equal. lia. }
  pose proof (read_zero_block _ _ Hin) as Hread.
  exists (with_pc at_loop_head (read_block (Z.of_nat bs) (init (zero_blocks bs n)))).
  split.
  - erewrite run_step by (by apply exec_read).
    erewrite run_step; [done|].
    apply exec_check_gap; by rewrite Hread.
  - rewrite Hread. constructor; simpl; try done.
    + eexists. done.
    + intros j. rewrite lookup_empty. split; [by intros [? ?]|lia].
Qed.

Lemma stuck_next i st :
  Stuck bs n i st → (1 ≤ i < n)%nat →
  ∃ st1 st',
    run' [main_thread try_ok; worker_thread 1] st = Some st1
    ∧ pc st1 = at_check ∧ size (block_crc_map st1) = i
    ∧ exec checksum (Z.of_nat bs) (main_thread try_ok) st1 = Some st'
    ∧ Stuck bs n (S i) st'.
Proof.
  intros [] Hi.
  destruct stuck_pool0 as (t0 & Htp & Ht0).
  set (m := block_crc_map st) in *.
  assert (Hnone : m !! Z.of_nat i = None).
  { destruct (m !! Z.of_nat i) as [v|] eqn:E; [|done].
    assert (His : is_Some (m !! Z.of_nat i)) by eauto.
    apply stuck_keys0 in His. lia. }
  assert (Hzero : m !! 0 = None).
  { destruct (m !! 0) as [v|] eqn:E; [|done].
    assert (His : is_Some (m !! 0)) by eauto.
    apply stuck_keys0 in His. lia. }
  assert (Hw : wrap64 (Z.of_nat i + 1) = Z.of_nat (S i)).
  { rewrite wrap64_small; [lia|]. unfold is_uint64, uint64_max. nia. }
  assert (Hin : input_file st = zero_blocks bs (S (n - S i))).
  { rewrite stuck_input0. f_equal. lia. }
  pose proof (read_zero_block st _ Hin) as Hread.
  rewrite stuck_counter0, stuck_cursor0, stuck_output0, Htp, Hw in Hread.
  fold m in Hread. simpl app in Hread.
  set (t1 := task.mk (replicate bs "000"%byte) (Z.of_nat bs) (Z.of_nat i)) in *.
  set (st1 := with_map (<[Z.of_nat i := crc_value checksum t1]> m)
                (with_tp [t0] (read_block (Z.of_nat bs) st))).
  assert (Hworker : exec checksum (Z.of_nat bs) (worker_thread 1)
                      (read_block (Z.of_nat bs) st) = Some st1).
  { rewrite (exec_worker _ _ 1 t1) by (by rewrite Hread).
    unfold st1, run_task, map_insert. rewrite Hread. simpl. by rewrite Hnone. }
  exists st1, (with_pc at_loop_head st1).
  split; [|split; [|split; [|split]]].
  - erewrite run_step by (by apply exec_read).
    erewrite run_step; [done|exact Hworker].
  - unfold st1. by rewrite Hread.
  - unfold st1. simpl. rewrite map_size_insert_None by done. fold m. lia.
  - apply exec_check_gap; unfold st1; rewrite Hread; simpl; [done|].
    rewrite lookup_insert_ne by lia. done.
  - unfold st1. rewrite Hread. constructor; simpl; try done.
    + eauto.
    + intros j. rewrite lookup_insert_is_Some, stuck_keys0. lia.
    + rewrite map_size_insert_None by done. fold m. lia.
Qed.

Lemma stuck_on m : ∀ i st,
  Stuck bs n i st → (1 ≤ i)%nat → (i + m ≤ n)%nat →
  ∃ st', run' (mjoin (replicate m
                 [main_thread try_ok; worker_thread 1; main_thread try_ok])) st
           = Some st'
    ∧ Stuck bs n (i + m) st'.
Proof.
  induction m as [|m IH]; intros i st HS Hi Him.
  - exists st. split; [done|]. by rewrite Nat.add_0_r.
  - destruct (stuck_next i st HS ltac:(lia)) as (st1 & st2 & Hrun1 & _ & _ & Hex & HS2).
    destruct (IH (S i) st2 HS2 ltac:(lia) ltac:(lia)) as (st' & Hrun' & HS').
    exists st'. split; [|by replace (i + S m)%nat with (S i + m)%nat by lia].
    assert (Hrun3 : run' [main_thread try_ok; worker_thread 1; main_thread try_ok] st
                    = Some st2).
    { change [main_thread try_ok; worker_thread 1; main_thread try_ok]
        with ([main_thread try_ok; worker_thread 1] ++ [main_thread try_ok]).
      rewrite run_app, Hrun1.
      change (run' [main_thread try_ok] st1 = Some st2).
      by erewrite run_step by exact Hex. }
    change (mjoin (replicate (S m) ?l)) with (l ++ mjoin (replicate m l)).
    by rewrite run_app, Hrun3.
Qed.

Lemma stuck_unwritten i st : Stuck bs n i st → unwritten st = (i - 1)%nat.
Proof.
  intros []. unfold unwritten. rewrite stuck_cursor0.
  rewrite map_filter_id; [done|].
  intros j v Hj. simpl.
  assert (His : is_Some (block_crc_map st !! j)) by eauto.
  apply stuck_keys0 in His. lia.
Qed.

Lemma first_one_stuck_unwritten :
  (1 ≤ n)%nat →
  ∃ st, run' (first_one_stuck n) (init (zero_blocks bs n)) = Some st
    ∧ output_file_stream st = []
    ∧ input_file st = []
    ∧ block_counter st = Z.of_nat n
    ∧ unwritten st = (n - 1)%nat.
Proof.
  intros H1.
  destruct (stuck_first H1) as (st1 & Hrun1 & HS1).
  destruct (stuck_on (n - 1) 1 st1 HS1 ltac:(lia) ltac:(lia)) as (st & Hrun & HS).
  replace (1 + (n - 1))%nat with n in HS by lia.
  exists st. split; [|split; [|split; [|split]]].
  - unfold first_one_stuck. by rewrite run_app, Hrun1.
  - by destruct HS.
  - destruct HS. rewrite stuck_input0. unfold zero_blocks.
    by replace ((n - n) * bs)%nat with 0%nat by lia.
  - by destruct HS.
  - by rewrite (stuck_unwritten _ _ HS).
Qed.

End Stuck.

(** C5, as stated, fails in its last part: the check does not keep the
    number of records waiting to be written within any bound set by the
    threshold. With the block size of the option string 1K and an input of
    300 blocks, while the task of block 0 is still running [crc_saver] finds
    nothing to write, the loop reads on to the end of the input, and 299
    records are in the map, none of them written. *)
Lemma unwritten_records_pile_up :
  ∃ bsv st,
    BlockSize.validate "1K" = Returns (BlockSize.value_stored bsv)
    ∧ BlockSize.get bsv = 1024
    ∧ run byte_count (BlockSize.get bsv) (first_one_stuck 300)
        (init (zero_blocks 1024 300)) = Some st
    ∧ Forall no_throw (first_one_stuck 300)
    ∧ input_file st = []
    ∧ output_file_stream st = []
    ∧ unwritten st = 299%nat
    ∧ BLOCK_CRC_MAP_PROCESSING_SIZE < Z.of_nat (unwritten st).
Proof.
  assert (Hv : ∃ bsv, BlockSize.validate "1K" = Returns (BlockSize.value_stored bsv)
                      ∧ BlockSize.get bsv = 1024)
    by (eexists; split; reflexivity).
  destruct Hv as (bsv & Hv & Hget).
  destruct (first_one_stuck_unwritten byte_count 1024 300 ltac:(lia) ltac:(lia)
              ltac:(lia))
    as (st & Hrun & Hout & Hin & _ & Hun).
  exists bsv, st. split; [done|]. split; [done|].
  split; [by rewrite Hget|]. split; [apply first_one_stuck_no_throw|].
  split; [done|]. split; [done|]. rewrite Hun. split; [done|].
  unfold BLOCK_CRC_MAP_PROCESSING_SIZE. lia.
Qed.

Example unwritten_records_of_300 :
  (λ st, (pc st, block_counter st, output_file_stream st, unwritten st,
          size (block_crc_map st)))
    <$> run byte_count 1024 (first_one_stuck 300) (init (zero_blocks 1024 300))
  = Some (at_loop_head, 300, [], 299%nat, 299%nat).
Proof. vm_compute. reflexivity. Qed.

(** X15. The size check does not hold the loop back, at any block size the
    program accepts: on an input of [n] blocks of [bs] bytes, [bs] at least
    1024 and the input shorter than 2^63 bytes, with the task of block 0
    still running and every other task finished at once, the loop reads all
    [n] blocks while nothing is written, and [n - 1] records wait in the
    map. *)
Theorem unwritten_grows_with_the_input checksum bs n :
  (1024 ≤ bs)%nat → Z.of_nat (n * bs) < 2 ^ 63 → (1 ≤ n)%nat →
  ∃ st, run checksum (Z.of_nat bs) (first_one_stuck n) (init (zero_blocks bs n))
        = Some st
    ∧ Forall no_throw (first_one_stuck n)
    ∧ input_file st = []
    ∧ block_counter st = Z.of_nat n
    ∧ output_file_stream st = []
    ∧ unwritten st = (n - 1)%nat.
Proof.
  intros Hbs Hn H1.
  destruct (first_one_stuck_unwritten checksum bs n ltac:(lia) Hn H1)
    as (st & Hrun & Hout & Hin & Hk & Hun).
  exists st. split; [done|]. split; [apply first_one_stuck_no_throw|done].
Qed.

Lemma unwritten_grows_with_the_input_witness :
  (1024 ≤ 4096)%nat ∧ Z.of_nat (1000 * 4096) < 2 ^ 63 ∧ (1 ≤ 1000)%nat
  ∧ ∃ st, run byte_count (Z.of_nat 4096) (first_one_stuck 1000)
            (init (zero_blocks 4096 1000)) = Some st
      ∧ unwritten st = 999%nat.
Proof.
  split; [lia|]. split; [lia|]. split; [lia|].
  destruct (unwritten_grows_with_the_input byte_count 4096 1000
              ltac:(lia) ltac:(lia) ltac:(lia))
    as (st & Hrun & _ & _ & _ & _ & Hun).
  exists st. split; [exact Hrun|exact Hun].
Defined.

(** ** The range checks of [set] *)


